(** * light-esb-node: message envelopes, components and the dispatch engine

    A shallow embedding of [src/light-esb-node.js].  JavaScript objects that
    the library shares by reference live in explicit stores:

    - payload data (plain objects, possibly nested, shared or cyclic) in a
      heap of property maps indexed by locations;
    - [ESBMessage] instances in a message store, so that every component
      visited by a message sees the mutations made by the previous ones;
    - components in a component store, since [connect] mutates the channel
      table of a component that other components point to.

    Property maps are [gmap]s of own properties.  The two objects that the
    library itself uses as tables, the channel table of a component and the
    [vars] of a message, are plain objects: a name that they do not hold is
    read through [Object.prototype].  Numbers are the integers, and strings
    are sequences of bytes, the UTF-8 form of the JavaScript string. *)

From stdpp Require Import gmap strings list fin_maps fin_sets relations pretty.
From Stdlib Require Import Ascii ZArith.

Open Scope string_scope.
Open Scope list_scope.
Open Scope nat_scope.

(** ** Values and the heap of payload objects *)

Definition loc := nat.

(** The functions that every plain object inherits from [Object.prototype]. *)
Inductive builtin :=
  | BConstructor
  | BDefineGetter
  | BDefineSetter
  | BHasOwnProperty
  | BLookupGetter
  | BLookupSetter
  | BIsPrototypeOf
  | BPropertyIsEnumerable
  | BToString
  | BValueOf
  | BToLocaleString.

#[global] Instance builtin_eq_dec : EqDecision builtin.
Proof. solve_decision. Defined.

(** A value is a primitive, a reference to a payload object in the heap, or
    one of the built-in functions above, which a read of [vars] can bring
    into a payload. *)
Inductive value :=
  | VUndef
  | VNull
  | VBool (b : bool)
  | VNum (z : Z)
  | VStr (s : string)
  | VRef (l : loc)
  | VBuiltin (b : builtin).

#[global] Instance value_eq_dec : EqDecision value.
Proof. solve_decision. Defined.

Abbreviation obj := (gmap string value).
Abbreviation heap := (gmap loc obj).

(** JavaScript truthiness, as used by [if (x)]. *)
Definition truthy (v : value) : bool :=
  match v with
  | VUndef | VNull => false
  | VBool b => b
  | VNum z => negb (Z.eqb z 0)
  | VStr s => negb (String.eqb s "")
  | VRef _ => true
  | VBuiltin _ => true
  end.


Definition val_loc (v : value) : option loc :=
  match v with VRef l => Some l | _ => None end.

(** The locations an object points to through its properties. *)
Definition obj_refs (o : obj) : gset loc :=
  list_to_set (omap val_loc (map_to_list o).*2).

Definition heap_succs (h : heap) (l : loc) : gset loc :=
  match h !! l with Some o => obj_refs o | None => ∅ end.

(** One round of following references from a set of locations. *)
Definition reach_step (h : heap) (X : gset loc) : gset loc :=
  X ∪ set_bind (heap_succs h) X.

(** The objects reachable from a value: every object is found after at most
    as many rounds as the heap has objects. *)
Definition reach (h : heap) (v : value) : gset loc :=
  match v with
  | VRef l => Nat.iter (size h) (reach_step h) {[l]}
  | _ => ∅
  end.

(** Reachability as a relation, for specifications. *)
Definition points_to (h : heap) (l l' : loc) : Prop :=
  ∃ o k, h !! l = Some o ∧ o !! k = Some (VRef l').

Definition reachable (h : heap) (v : value) (x : loc) : Prop :=
  ∃ l, v = VRef l ∧ rtc (points_to h) l x.

(** No dangling references, and every object below the allocation pointer. *)
Definition obj_closedb (h : heap) (o : obj) : bool :=
  forallb (λ v, match v with VRef l => bool_decide (is_Some (h !! l)) | _ => true end)
          (map_to_list o).*2.

Definition heap_closedb (h : heap) (nx : loc) : bool :=
  forallb (λ lo, Nat.ltb lo.1 nx && obj_closedb h lo.2) (map_to_list h).

Definition val_okb (h : heap) (v : value) : bool :=
  match v with VRef l => bool_decide (is_Some (h !! l)) | _ => true end.

Definition heap_closed (h : heap) (nx : loc) : Prop := heap_closedb h nx = true.
Definition val_ok (h : heap) (v : value) : Prop := val_okb h v = true.

(** ** The [clone] package

    [clone] is the npm package of that name.  [clone(x)] returns primitives
    and functions unchanged and, for an object, a deep copy of everything
    reachable from it that preserves sharing and cycles (the package's
    default [circular] mode).  The copy of the object at [l] is allocated at [nx + l], where
    [nx] is the allocation pointer: a fresh address for every copied
    object; objects that are not reachable are not copied. *)

Definition shift_val (nx : loc) (v : value) : value :=
  match v with VRef l => VRef (nx + l) | _ => v end.

Definition shift_obj (nx : loc) (o : obj) : obj := shift_val nx <$> o.

#[global] Instance plus_inj (nx : nat) : Inj (=) (=) (Nat.add nx).
Proof. intros x y. lia. Qed.

Definition copy_region (h : heap) (nx : loc) (R : gset loc) : heap :=
  kmap (Nat.add nx) (shift_obj nx <$> filter (λ lo, lo.1 ∈ R) h).

Definition clone (h : heap) (nx : loc) (v : value) : value * heap * loc :=
  match v with
  | VRef l => (VRef (nx + l), h ∪ copy_region h nx (reach h v), nx + nx)
  | _ => (v, h, nx)
  end.

(** Structural ("deep") equality of two values living in two heaps, compared
    down to depth [n]; two values are deep-equal when they agree at every
    depth. *)
Fixpoint deq (n : nat) (h1 : heap) (v1 : value) (h2 : heap) (v2 : value) : Prop :=
  match v1, v2 with
  | VRef l1, VRef l2 =>
      match n with
      | 0 => True
      | S n' =>
          ∃ o1 o2, h1 !! l1 = Some o1 ∧ h2 !! l2 = Some o2 ∧
            ∀ k, option_Forall2 (λ a b, deq n' h1 a h2 b) (o1 !! k) (o2 !! k)
      end
  | VRef _, _ | _, VRef _ => False
  | _, _ => v1 = v2
  end.

Definition deep_equal (h1 : heap) (v1 : value) (h2 : heap) (v2 : value) : Prop :=
  ∀ n, deq n h1 v1 h2 v2.

(** ** Strings *)

Definition ascii_upper (a : ascii) : ascii :=
  let n := nat_of_ascii a in
  if (97 <=? n) && (n <=? 122) then ascii_of_nat (n - 32) else a.

Definition ascii_lower (a : ascii) : ascii :=
  let n := nat_of_ascii a in
  if (65 <=? n) && (n <=? 90) then ascii_of_nat (n + 32) else a.

Definition bytes (l : list nat) : string :=
  String.string_of_list_ascii (ascii_of_nat <$> l).

(** A character outside ASCII, as its UTF-8 bytes, with its upper case and
    its case folding. *)
Record casing := {
  cs_char : string;
  cs_upper : string;
  cs_fold : string;
}.

(** The characters outside ASCII whose upper case or whose case folding is
    made of ASCII letters only: the sharp s (U+00DF), the dotless i
    (U+0131), the long s (U+017F), the capital sharp s (U+1E9E), the Kelvin
    sign (U+212A) and the Latin ligatures (U+FB00 to U+FB06). *)
Definition special_casing : list casing :=
  [ {| cs_char := bytes [195; 159]; cs_upper := "SS"; cs_fold := "ss" |};
    {| cs_char := bytes [196; 177]; cs_upper := "I"; cs_fold := bytes [196; 177] |};
    {| cs_char := bytes [197; 191]; cs_upper := "S"; cs_fold := "s" |};
    {| cs_char := bytes [225; 186; 158]; cs_upper := bytes [225; 186; 158];
       cs_fold := "ss" |};
    {| cs_char := bytes [226; 132; 170]; cs_upper := bytes [226; 132; 170];
       cs_fold := "k" |};
    {| cs_char := bytes [239; 172; 128]; cs_upper := "FF"; cs_fold := "ff" |};
    {| cs_char := bytes [239; 172; 129]; cs_upper := "FI"; cs_fold := "fi" |};
    {| cs_char := bytes [239; 172; 130]; cs_upper := "FL"; cs_fold := "fl" |};
    {| cs_char := bytes [239; 172; 131]; cs_upper := "FFI"; cs_fold := "ffi" |};
    {| cs_char := bytes [239; 172; 132]; cs_upper := "FFL"; cs_fold := "ffl" |};
    {| cs_char := bytes [239; 172; 133]; cs_upper := "ST"; cs_fold := "st" |};
    {| cs_char := bytes [239; 172; 134]; cs_upper := "ST"; cs_fold := "st" |} ].

Definition special (p : string) : option casing :=
  List.find (λ e, String.eqb (cs_char e) p) special_casing.

(** Re-casing of a string: a character of [special_casing] is replaced by
    [out] of its entry, any other byte by [f] of it. *)
Fixpoint recase (out : casing → string) (f : ascii → ascii) (s : string) : string :=
  match s with
  | EmptyString => EmptyString
  | String a s1 =>
      let plain := String (f a) (recase out f s1) in
      match s1 with
      | EmptyString => plain
      | String b s2 =>
          match special (String a (String b EmptyString)) with
          | Some e => out e ++ recase out f s2
          | None =>
              match s2 with
              | EmptyString => plain
              | String c s3 =>
                  match special (String a (String b (String c EmptyString))) with
                  | Some e => out e ++ recase out f s3
                  | None => plain
                  end
              end
          end
      end
  end.

(** [String.prototype.toUpperCase], as far as the comparison of its result
    with a word of ASCII letters goes, which is what the library uses it
    for: ASCII letters and the characters of [special_casing] are mapped as
    JavaScript maps them; any other character is left as it is, and its
    upper case in JavaScript is not made of ASCII letters either. *)
Definition toUpperCase : string → string := recase cs_upper ascii_upper.

(** Unicode case folding, to the same extent. *)
Definition case_fold : string → string := recase cs_fold ascii_lower.

(** Equality of two strings up to the case of their letters. *)
Definition eq_ignoring_case (s t : string) : Prop := case_fold s = case_fold t.

(** The long s, and the spellings of [SET] up to case. *)
Definition long_s : string := bytes [197; 191].

Definition SET_spellings : list string :=
  s ← ["s"; "S"; long_s]; e ← ["e"; "E"]; t ← ["t"; "T"]; [(s ++ e ++ t)%string].

(** The UTF-16 code units of a string, which are what JavaScript indexes a
    string by, each as a string: a character of the basic plane (one to
    three bytes) is one unit; a character outside it (four bytes) is a pair
    of surrogates, written as three bytes each. *)
Definition surrogates (a b c d : ascii) : list string :=
  let byte x := Z.of_nat (nat_of_ascii x) in
  let point := ((byte a mod 8) * 262144 + (byte b mod 64) * 4096 +
                (byte c mod 64) * 64 + byte d mod 64)%Z in
  let unit u :=
    bytes (Z.to_nat <$> [224 + u / 4096; 128 + (u / 64) mod 64; 128 + u mod 64]%Z) in
  [unit (55296 + (point - 65536) / 1024)%Z; unit (56320 + (point - 65536) mod 1024)%Z].

Fixpoint code_units (s : string) : list string :=
  match s with
  | EmptyString => []
  | String a s1 =>
      let single := String a EmptyString :: code_units s1 in
      if nat_of_ascii a <? 192 then single
      else
        match s1 with
        | EmptyString => single
        | String b s2 =>
            if nat_of_ascii a <? 224
            then String a (String b EmptyString) :: code_units s2
            else
              match s2 with
              | EmptyString => single
              | String c s3 =>
                  if nat_of_ascii a <? 240
                  then String a (String b (String c EmptyString)) :: code_units s3
                  else
                    match s3 with
                    | EmptyString => single
                    | String d s4 => surrogates a b c d ++ code_units s4
                    end
              end
        end
  end.

(** ** Numbers as property keys

    [VNum z] stands for the Number value for the integer [z]: [z] itself
    when it is at most [2^53] in absolute value, the nearest double
    otherwise. *)

(** The nearest double to a positive integer, ties to the even
    significand. *)
Definition nearest_double (z : Z) : Z :=
  let bits := (Z.log2 z + 1)%Z in
  if (bits <=? 53)%Z then z
  else
    let sh := (bits - 53)%Z in
    let q := Z.shiftr z sh in
    let r := (z - Z.shiftl q sh)%Z in
    let half := Z.shiftl 1 (sh - 1) in
    let q' := if (half <? r)%Z || ((r =? half)%Z && Z.odd q) then (q + 1)%Z else q in
    Z.shiftl q' sh.

Definition digits (z : Z) : string := pretty z.

(** The numbers [s] of [k] digits that, followed by [n - k] zeros, read back
    as the double [x]: at most one is kept, the closest to [x]. *)
Definition candidates (x : Z) (n k : nat) : list Z :=
  let unit := (10 ^ Z.of_nat (n - k))%Z in
  let lo := (x / unit)%Z in
  let ok s := bool_decide (10 ^ Z.of_nat (k - 1) ≤ s < 10 ^ Z.of_nat k)%Z &&
              (nearest_double (s * unit) =? x)%Z in
  let dist s := Z.abs (s * unit - x) in
  let c := filter (λ s, ok s = true) [lo; (lo + 1)%Z] in
  match c with
  | [a; b] => if (dist b <? dist a)%Z || ((dist b =? dist a)%Z && Z.even b) then [b] else [a]
  | _ => c
  end.

(** The shortest such number, trying [k], [k + 1], ... *)
Fixpoint shortest (x : Z) (n : nat) (k : nat) (tries : nat) : option (Z * nat) :=
  match tries with
  | 0 => None
  | S tries' =>
      match candidates x n k with
      | s :: _ => Some (s, k)
      | [] => shortest x n (S k) tries'
      end
  end.

Definition zeros (n : nat) : string := String.string_of_list_ascii (replicate n "0"%char).

(** [Number::toString] on a positive integer-valued double [x]: with [s] the
    shortest number of [k] digits such that [s] times [10^(n-k)] reads back
    as [x], the digits of [s] followed by zeros when [n] is at most 21, the
    exponent form otherwise. *)
Definition positive_toString (x : Z) : string :=
  let n0 := String.length (digits x) in
  let '(s, k, n) :=
    if (nearest_double (10 ^ Z.of_nat n0) =? x)%Z then (1%Z, 1, S n0)
    else match shortest x n0 1 n0 with
         | Some (s, k) => (s, k, n0)
         | None => (x, n0, n0)
         end in
  if n <=? 21 then (digits s ++ zeros (n - k))%string
  else
    match digits s with
    | String d rest =>
        let mantissa := if k =? 1 then String d "" else (String d "." ++ rest)%string in
        (mantissa ++ "e+" ++ pretty (n - 1))%string
    | EmptyString => ""
    end.

(** [Number::toString] on the Number value for the integer [z]. *)
Definition Number_toString (z : Z) : string :=
  if (z =? 0)%Z then "0"
  else
    let x := nearest_double (Z.abs z) in
    let sign := if (z <? 0)%Z then "-" else "" in
    if (2 ^ 1024 <=? x)%Z then (sign ++ "Infinity")%string
    else (sign ++ positive_toString x)%string.

(** ** The properties every object inherits *)

(** The functions of [Object.prototype], under their property names. *)
Definition Object_prototype : gmap string builtin :=
  list_to_map
    [ ("constructor", BConstructor);
      ("__defineGetter__", BDefineGetter);
      ("__defineSetter__", BDefineSetter);
      ("hasOwnProperty", BHasOwnProperty);
      ("__lookupGetter__", BLookupGetter);
      ("__lookupSetter__", BLookupSetter);
      ("isPrototypeOf", BIsPrototypeOf);
      ("propertyIsEnumerable", BPropertyIsEnumerable);
      ("toString", BToString);
      ("valueOf", BValueOf);
      ("toLocaleString", BToLocaleString) ].

(** The name under which a built-in function prints itself. *)
Definition builtin_name (b : builtin) : string :=
  match b with
  | BConstructor => "Object"
  | BDefineGetter => "__defineGetter__"
  | BDefineSetter => "__defineSetter__"
  | BHasOwnProperty => "hasOwnProperty"
  | BLookupGetter => "__lookupGetter__"
  | BLookupSetter => "__lookupSetter__"
  | BIsPrototypeOf => "isPrototypeOf"
  | BPropertyIsEnumerable => "propertyIsEnumerable"
  | BToString => "toString"
  | BValueOf => "valueOf"
  | BToLocaleString => "toLocaleString"
  end.

(** The names that a plain object answers to without holding them: those of
    the functions above and the accessor [__proto__]. *)
Definition inherited (k : string) : bool :=
  bool_decide (is_Some (Object_prototype !! k)) || String.eqb k "__proto__".

(** What [table[k]] evaluates to on a plain object with the own properties
    [table]: the own property; else the function that [Object.prototype]
    has under that name; else, for [__proto__], [Object.prototype] itself;
    else [undefined]. *)
Inductive property :=
  | Data (v : value)
  | ThePrototype.

Definition get_property (table : gmap string value) (k : string) : property :=
  match table !! k with
  | Some v => Data v
  | None =>
      match Object_prototype !! k with
      | Some b => Data (VBuiltin b)
      | None => if String.eqb k "__proto__" then ThePrototype else Data VUndef
      end
  end.

(** Conversion of a value to a property key; an object is taken to be a
    plain one that does not redefine [toString]. *)
Definition to_key (v : value) : string :=
  match v with
  | VUndef => "undefined"
  | VNull => "null"
  | VBool true => "true"
  | VBool false => "false"
  | VNum z => Number_toString z
  | VStr s => s
  | VRef _ => "[object Object]"
  | VBuiltin b => "function " ++ builtin_name b ++ "() { [native code] }"
  end.

(** ** Errors, callbacks and events *)

Definition cid := nat.
Definition mid := nat.

Inductive error :=
  | TypeError (msg : string)
  | Raised (v : value).

(** The [errorInfo] object built by [send]. *)
Record errorInfo := {
  ei_component : cid;
  ei_message : mid;
  ei_cause : error;
}.

(** The two ways the library calls a user-supplied callback:
    [callback(errorInfo)] and [callback(null, message)]. *)
Inductive cb_args :=
  | CbFailure (info : errorInfo)
  | CbResult (m : mid).

(** A user-supplied callback: it is identified by a name, and what the
    model knows of its body is whether it raises on given arguments.  Every
    invocation is recorded in the trace.  Callbacks are assumed not to call
    back into the library. *)
Record callback := {
  cb_name : nat;
  cb_raises : cb_args → option error;
}.

Inductive event :=
  | DbgStarted (c : cid) (correlation : nat)
  | DbgPosted (c : cid) (correlation : nat)
  | DbgPassing (c : cid) (m : mid) (target : cid) (name : string)
  | DbgConnected (c target : cid) (name : string)
  | DbgWork (c : cid) (m : mid) (what : string)
  | ConsoleLog (c : cid) (m : mid)
  | Called (cb : nat) (args : cb_args).

(** The outcome of a run: it returns, it raises, or the model stops
    following it.  The last two constructors are no outcome of the program,
    and no exception of it: nothing catches them, and no statement reads
    one of them as what the program does.  [OutOfFuel]: the run nests
    more sends than the bound it was given (in Node the bound on nesting is
    the call stack, and what a run does once the stack is exhausted depends
    on where that happens).  [Unsupported]: the run changes the prototype of
    [vars] or a property of a built-in function, after which property reads
    are no longer those described here. *)
Inductive res (A : Type) :=
  | Ok (a : A)
  | Throw (e : error)
  | OutOfFuel
  | Unsupported.
Arguments Ok {A} a.
Arguments Throw {A} e.
Arguments OutOfFuel {A}.
Arguments Unsupported {A}.

(** ** Messages and components *)

Record caller_info := {
  caller_user : value;
  caller_system : value;
  caller_correlationId : value;
}.

Record msg_context := {
  createdTimestamp : Z;
  correlationId : nat;
  caller : caller_info;
}.

Record esb_message := {
  m_payload : value;
  m_context : msg_context;
  m_originalPayload : value;
  m_vars : gmap string value;
}.

(** The [object-mapper] function, which the Mapper component's work closes
    over: from the heap, the source and the map it computes a result (or
    raises) and may allocate. *)
Definition object_mapper : Type :=
  heap → loc → value → value → res value * heap * loc.

(** The work function [fn] of a component: one closure per component kind. *)
Inductive workfn :=
  | FnLogger
  | FnMapper (objectMapper : object_mapper)
  | FnSleep
  | FnVarSet
  | FnVarGet
  | FnCombine
  | FnCall (pathArguments : value)
  | FnResult.

(** A component object.  [c_fn], [c_id], [c_channels] and [c_callback] are
    the properties [fn], [id], [channels] and [callback] set by
    [ESBComponent]; [c_fields] holds every other own property. *)
Record esb_component := {
  c_fn : workfn;
  c_id : nat;
  c_channels : gmap string (list cid);
  c_callback : option callback;
  c_fields : gmap string value;
}.

Inductive verb := GET | POST.

(** An outbound request handed to the REST client. *)
Record request := {
  rq_component : cid;
  rq_message : mid;
  rq_verb : verb;
  rq_url : value;
  rq_path : option value;
  rq_data : option value;
}.

(** ** The world *)

Record world := {
  objs : heap;
  fresh : loc;
  msgs : gmap mid esb_message;
  next_mid : mid;
  comps : gmap cid esb_component;
  next_cid : cid;
  uuids : nat;
  now : Z;
  trace : list event;
  immediates : list (cid * mid);
  timers : list (value * cid * mid);
  requests : list request;
}.

Definition empty_world : world :=
  {| objs := ∅; fresh := 0; msgs := ∅; next_mid := 0; comps := ∅; next_cid := 0;
     uuids := 0; now := 0%Z; trace := []; immediates := []; timers := [];
     requests := [] |}.

Definition set_heap (h : heap) (nx : loc) (w : world) : world :=
  {| objs := h; fresh := nx; msgs := msgs w; next_mid := next_mid w;
     comps := comps w; next_cid := next_cid w; uuids := uuids w; now := now w;
     trace := trace w; immediates := immediates w; timers := timers w;
     requests := requests w |}.

Definition set_msgs (ms : gmap mid esb_message) (nm : mid) (w : world) : world :=
  {| objs := objs w; fresh := fresh w; msgs := ms; next_mid := nm;
     comps := comps w; next_cid := next_cid w; uuids := uuids w; now := now w;
     trace := trace w; immediates := immediates w; timers := timers w;
     requests := requests w |}.

Definition set_comps (cs : gmap cid esb_component) (nc : cid) (w : world) : world :=
  {| objs := objs w; fresh := fresh w; msgs := msgs w; next_mid := next_mid w;
     comps := cs; next_cid := nc; uuids := uuids w; now := now w;
     trace := trace w; immediates := immediates w; timers := timers w;
     requests := requests w |}.

Definition set_uuids (u : nat) (w : world) : world :=
  {| objs := objs w; fresh := fresh w; msgs := msgs w; next_mid := next_mid w;
     comps := comps w; next_cid := next_cid w; uuids := u; now := now w;
     trace := trace w; immediates := immediates w; timers := timers w;
     requests := requests w |}.

Definition set_trace (t : list event) (w : world) : world :=
  {| objs := objs w; fresh := fresh w; msgs := msgs w; next_mid := next_mid w;
     comps := comps w; next_cid := next_cid w; uuids := uuids w; now := now w;
     trace := t; immediates := immediates w; timers := timers w;
     requests := requests w |}.

Definition set_immediates (q : list (cid * mid)) (w : world) : world :=
  {| objs := objs w; fresh := fresh w; msgs := msgs w; next_mid := next_mid w;
     comps := comps w; next_cid := next_cid w; uuids := uuids w; now := now w;
     trace := trace w; immediates := q; timers := timers w;
     requests := requests w |}.

Definition set_timers (t : list (value * cid * mid)) (w : world) : world :=
  {| objs := objs w; fresh := fresh w; msgs := msgs w; next_mid := next_mid w;
     comps := comps w; next_cid := next_cid w; uuids := uuids w; now := now w;
     trace := trace w; immediates := immediates w; timers := t;
     requests := requests w |}.

Definition set_requests (r : list request) (w : world) : world :=
  {| objs := objs w; fresh := fresh w; msgs := msgs w; next_mid := next_mid w;
     comps := comps w; next_cid := next_cid w; uuids := uuids w; now := now w;
     trace := trace w; immediates := immediates w; timers := timers w;
     requests := r |}.

(** ** Computations: state, exceptions and fuel *)

Definition M (A : Type) : Type := world → res A * world.

Definition ret {A} (a : A) : M A := λ w, (Ok a, w).

Definition bind {A B} (m : M A) (k : A → M B) : M B :=
  λ w, match m w with
       | (Ok a, w') => k a w'
       | (Throw e, w') => (Throw e, w')
       | (OutOfFuel, w') => (OutOfFuel, w')
       | (Unsupported, w') => (Unsupported, w')
       end.

Notation "'let*' x := m 'in' k" := (bind m (λ x, k))
  (at level 10, x name, m at level 100, k at level 200).
Notation "m >> k" := (bind m (λ _, k))
  (at level 62, right associativity).

Definition throw {A} (e : error) : M A := λ w, (Throw e, w).

Definition unsupported {A} : M A := λ w, (Unsupported, w).

Definition modify (f : world → world) : M unit := λ w, (Ok tt, f w).

(** [try { body } catch (e) { handler(e) }]. *)
Definition try_catch (body : M unit) (handler : error → M unit) : M unit :=
  λ w, match body w with
       | (Throw e, w') => handler e w'
       | r => r
       end.

(** [xs.forEach(body)]. *)
Fixpoint forEach {A} (xs : list A) (body : A → M unit) : M unit :=
  match xs with
  | [] => ret tt
  | x :: xs' => body x >> forEach xs' body
  end.

Definition emit (e : event) : M unit := modify (λ w, set_trace (trace w ++ [e]) w).

(** Modelled from the spec: the [util] module ([./util]) is not among the
    sources.  Its [debugMessage], [debugComponent] and [debugCall] functions
    are the diagnostic trace points of the spec (node entry, channel
    fan-out, failure): they record an event and have no other effect. *)
Definition debugMessage : event → M unit := emit.
Definition debugComponent : event → M unit := emit.
Definition debugCall : event → M unit := emit.

Definition get_msg (m : mid) : M esb_message :=
  λ w, match msgs w !! m with
       | Some x => (Ok x, w)
       | None => (Throw (TypeError "message is undefined"), w)
       end.

Definition get_comp (c : cid) : M esb_component :=
  λ w, match comps w !! c with
       | Some x => (Ok x, w)
       | None => (Throw (TypeError "component is undefined"), w)
       end.

Definition put_msg (m : mid) (x : esb_message) : M unit :=
  modify (λ w, set_msgs (<[m := x]> (msgs w)) (next_mid w) w).

Definition with_payload (v : value) (x : esb_message) : esb_message :=
  {| m_payload := v; m_context := m_context x;
     m_originalPayload := m_originalPayload x; m_vars := m_vars x |}.

Definition with_var (k : string) (v : value) (x : esb_message) : esb_message :=
  {| m_payload := m_payload x; m_context := m_context x;
     m_originalPayload := m_originalPayload x; m_vars := <[k := v]> (m_vars x) |}.

(** [message.payload = v]. *)
Definition set_payload (m : mid) (v : value) : M unit :=
  let* x := get_msg m in put_msg m (with_payload v x).

(** [message.vars[k] = v].  Unless [vars] holds a property of that name,
    an assignment to [__proto__] goes to the setter of [Object.prototype]:
    it ignores a primitive other than [null] and stores nothing; given an
    object, a function or [null] it replaces the prototype of [vars]. *)
Definition set_var (m : mid) (k : string) (v : value) : M unit :=
  let* x := get_msg m in
  if String.eqb k "__proto__" && bool_decide (m_vars x !! k = None)
  then match v with
       | VRef _ | VBuiltin _ | VNull => unsupported
       | VUndef | VBool _ | VNum _ | VStr _ => ret tt
       end
  else put_msg m (with_var k v x).

(** A new object with the properties [o]. *)
Definition allocate (o : obj) : M value :=
  λ w, (Ok (VRef (fresh w)), set_heap (<[fresh w := o]> (objs w)) (S (fresh w)) w).

(** [clone(v)], allocating in the world's heap. *)
Definition js_clone (v : value) : M value :=
  λ w, let '(v', h', nx') := clone (objs w) (fresh w) v in (Ok v', set_heap h' nx' w).

Definition uuid_v4 : M nat :=
  λ w, (Ok (uuids w), set_uuids (S (uuids w)) w).

Definition Date_now : M Z := λ w, (Ok (now w), w).

(** Reading a property of a component other than [fn], [id], [channels]
    and [callback]: [undefined] when no such property was ever set. *)
Definition get_field (this : esb_component) (k : string) : value :=
  default VUndef (c_fields this !! k).

(** ** ESBMessage *)

Definition ESBMessage (payload callerUser callerSystem callerCorrelationId : value)
    : M mid :=
  let* ts := Date_now in
  let* u := uuid_v4 in
  let* orig := js_clone payload in
  λ w, let m := next_mid w in
       (Ok m,
        set_msgs (<[m := {| m_payload := payload;
                            m_context := {| createdTimestamp := ts;
                                            correlationId := u;
                                            caller := {| caller_user := callerUser;
                                                         caller_system := callerSystem;
                                                         caller_correlationId := callerCorrelationId |} |};
                            m_originalPayload := orig;
                            m_vars := ∅ |}]> (msgs w)) (S m) w).

Definition createMessage (payload callerUser callerSystem callerCorrelationId : value)
    : M mid :=
  ESBMessage payload callerUser callerSystem callerCorrelationId.

(** ** ESBComponent *)

(** [ESBComponent.call(this, fn, callback)] on a new object whose other own
    properties are [flds]. *)
Definition ESBComponent (flds : gmap string value) (fn : workfn)
    (callback : option callback) : M cid :=
  let* u := uuid_v4 in
  λ w, let c := next_cid w in
       (Ok c,
        set_comps (<[c := {| c_fn := fn; c_id := u; c_channels := ∅;
                             c_callback := callback; c_fields := flds |}]> (comps w))
                  (S c) w).

Definition sender : Type := cid → mid → M unit.

(** [this.next(name, message)]; [name] is [None] when [next] is called with
    the message alone.  The channel table is the plain object
    [this.channels]: under a name that it inherits it answers with a value
    that is truthy and has no [forEach]. *)
Definition next (send : sender) (c : cid) (name : option string) (message : mid) : M unit :=
  let name := default "default" name in
  let* this := get_comp c in
  match c_channels this !! name with
  | Some targets =>
      forEach targets (λ channel,
        debugMessage (DbgPassing c message channel name) >>
        send channel message)
  | None =>
      if inherited name
      then throw (TypeError "this.channels[name].forEach is not a function")
      else ret tt
  end.

Definition with_channels (ch : gmap string (list cid)) (x : esb_component) : esb_component :=
  {| c_fn := c_fn x; c_id := c_id x; c_channels := ch;
     c_callback := c_callback x; c_fields := c_fields x |}.

(** [this.connect(channel, component)]; [channel] is [None] when [connect]
    is called with the component alone.  Under a name that the channel table
    inherits, [this.channels[channel]] is truthy, so that no list is created,
    and has no [push]. *)
Definition connect (c : cid) (channel : option string) (component : cid) : M unit :=
  let channel := default "default" channel in
  let* this := get_comp c in
  if bool_decide (c_channels this !! channel = None) && inherited channel
  then throw (TypeError "this.channels[channel].push is not a function")
  else
    let targets := default [] (c_channels this !! channel) in
    modify (λ w, set_comps
                   (<[c := with_channels (<[channel := targets ++ [component]]> (c_channels this)) this]>
                      (comps w))
                   (next_cid w) w) >>
    debugComponent (DbgConnected c component channel).

(** [this.callback(args)]. *)
Definition call_callback (c : cid) (args : cb_args) : M unit :=
  let* this := get_comp c in
  match c_callback this with
  | None => throw (TypeError "this.callback is not a function")
  | Some cb =>
      emit (Called (cb_name cb) args) >>
      match cb_raises cb args with
      | Some e => throw e
      | None => ret tt
      end
  end.

(** Own enumerable properties of a source of [Object.assign]: those of an
    object, the code units of a string under their indices; a built-in
    function has none. *)
Definition own_props (h : heap) (v : value) : obj :=
  match v with
  | VRef l => default ∅ (h !! l)
  | VStr s =>
      list_to_map (imap (λ i unit, (pretty i, VStr unit)) (code_units s))
  | _ => ∅
  end.

(** [Object.assign(target, source)], with the result dropped.  On a built-in
    function as target, a source with properties would change the function
    for the whole process. *)
Definition Object_assign (target source : value) : M unit :=
  match target with
  | VUndef | VNull => throw (TypeError "Cannot convert undefined or null to object")
  | VRef l =>
      modify (λ w, match objs w !! l with
                   | Some o => set_heap (<[l := own_props (objs w) source ∪ o]> (objs w))
                                        (fresh w) w
                   | None => w
                   end)
  | VStr s =>
      λ w, if bool_decide (map_Exists (λ k _, k = "length" ∨ is_Some (own_props ∅ (VStr s) !! k))
                                      (own_props (objs w) source))
           then (Throw (TypeError "Cannot assign to read only property"), w)
           else (Ok tt, w)
  | VBool _ | VNum _ => ret tt
  | VBuiltin _ =>
      λ w, if bool_decide (own_props (objs w) source = ∅)
           then (Ok tt, w)
           else (Unsupported, w)
  end.

(** The work function of each component kind, called as
    [fn.call(this, context, message)].  [message.vars[this.variableName]] is
    a read of the plain object [vars].  In the Variable-get component,
    [clone] of [Object.prototype] is a new object without properties.  In
    the Merge component the empty object literal that [parialPayload] starts
    from, and [Object.prototype], have no property to copy: they are
    represented by a source without properties, [undefined]. *)
Definition work (send : sender) (fn : workfn) (c : cid) (context : value) (message : mid)
    : M unit :=
  match fn with
  | FnLogger =>
      next send c None message
  | FnMapper objectMapper =>
      let* msg := get_msg message in
      let* this := get_comp c in
      let source := m_payload msg in
      let* resultPayload :=
        (λ w, let '(r, h, nx) := objectMapper (objs w) (fresh w) source (get_field this "map") in
              (r, set_heap h nx w)) in
      debugMessage (DbgWork c message "processed map") >>
      set_payload message resultPayload >>
      next send c None message
  | FnSleep =>
      let* this := get_comp c in
      debugMessage (DbgWork c message "sleeping") >>
      modify (λ w, set_timers (timers w ++ [(get_field this "sleepMiliseconds", c, message)]) w)
  | FnVarSet =>
      let* this := get_comp c in
      let* msg := get_msg message in
      let* copy := js_clone (m_payload msg) in
      set_var message (to_key (get_field this "variableName")) copy >>
      debugMessage (DbgWork c message "stored payload") >>
      next send c None message
  | FnVarGet =>
      let* this := get_comp c in
      let* msg := get_msg message in
      match get_property (m_vars msg) (to_key (get_field this "variableName")) with
      | Data stored =>
          if truthy stored
          then let* copy := js_clone stored in set_payload message copy
          else ret tt
      | ThePrototype =>
          let* copy := allocate ∅ in set_payload message copy
      end >>
      debugMessage (DbgWork c message "restored payload") >>
      next send c None message
  | FnCombine =>
      let* this := get_comp c in
      let* msg := get_msg message in
      let parialPayload :=
        match get_property (m_vars msg) (to_key (get_field this "variableName")) with
        | Data stored => if truthy stored then stored else VUndef
        | ThePrototype => VUndef
        end in
      Object_assign (m_payload msg) parialPayload >>
      debugMessage (DbgWork c message "combined") >>
      next send c None message
  | FnCall pathArguments =>
      let* this := get_comp c in
      let path := if truthy pathArguments then Some pathArguments else None in
      match get_field this "method" with
      | VStr method =>
          if String.eqb (toUpperCase method) "GET" then
            debugCall (DbgWork c message "GET") >>
            modify (λ w, set_requests
              (requests w ++ [{| rq_component := c; rq_message := message; rq_verb := GET;
                                 rq_url := get_field this "URL"; rq_path := path;
                                 rq_data := None |}]) w)
          else
            let* msg := get_msg message in
            debugCall (DbgWork c message "POST") >>
            modify (λ w, set_requests
              (requests w ++ [{| rq_component := c; rq_message := message; rq_verb := POST;
                                 rq_url := get_field this "URL"; rq_path := path;
                                 rq_data := Some (m_payload msg) |}]) w)
      | _ => throw (TypeError "this.method.toUpperCase is not a function")
      end
  | FnResult =>
      call_callback c (CbResult message)
  end.

(** [this.fn(this.context, message)]. *)
Definition invoke_fn (send : sender) (c : cid) (message : mid) : M unit :=
  let* this := get_comp c in
  work send (c_fn this) c (get_field this "context") message.

(** [ESBComponent.prototype.send], with the sends it triggers downstream
    running on [send]. *)
Definition base_send (send : sender) (c : cid) (message : mid) : M unit :=
  let* msg := get_msg message in
  debugComponent (DbgStarted c (correlationId (m_context msg))) >>
  try_catch
    (invoke_fn send c message)
    (λ error,
       call_callback c (CbFailure {| ei_component := c; ei_message := message;
                                     ei_cause := error |})).

(** [component.send(message)]: the Logger overrides [send] to print the
    message first.  The fuel bounds the depth of nested sends. *)
Fixpoint send (fuel : nat) (c : cid) (message : mid) : M unit :=
  match fuel with
  | 0 => λ w, (OutOfFuel, w)
  | S fuel' =>
      let* this := get_comp c in
      match c_fn this with
      | FnLogger => emit (ConsoleLog c message) >> base_send (send fuel') c message
      | _ => base_send (send fuel') c message
      end
  end.

(** [ESBComponent.prototype.post]: [setImmediate] queues the send. *)
Definition post (c : cid) (message : mid) : M unit :=
  let* msg := get_msg message in
  debugComponent (DbgPosted c (correlationId (m_context msg))) >>
  modify (λ w, set_immediates (immediates w ++ [(c, message)]) w).

(** The call of the oldest queued immediate, [function () {
    self.send(message); }].  Nothing catches what it raises: the error
    reaches the host. *)
Definition run_immediate (fuel : nat) : M unit :=
  λ w, match immediates w with
       | [] => (Ok tt, w)
       | (c, message) :: rest => send fuel c message (set_immediates rest w)
       end.

(** The check phase of one iteration of Node's event loop: the immediates
    that are queued when the phase starts are called in order.  An error
    that one of them raises is an uncaught exception, on which Node ends the
    process (no ['uncaughtException'] handler is installed): the phase ends
    with that error and the calls still queued never run. *)
Fixpoint run_queued (fuel n : nat) : M unit :=
  match n with
  | 0 => ret tt
  | S n' => run_immediate fuel >> run_queued fuel n'
  end.

Definition check_phase (fuel : nat) : M unit :=
  λ w, run_queued fuel (length (immediates w)) w.

(** The continuations of the asynchronous components: the expiry of a Sleep
    timer, and the response or transport error of a Call request. *)
Definition timer_fired (fuel : nat) (c : cid) (message : mid) : M unit :=
  next (send fuel) c None message.

Definition call_responded (fuel : nat) (c : cid) (message : mid) (responseBody : value)
    : M unit :=
  set_payload message responseBody >>
  debugComponent (DbgWork c message "received response") >>
  next (send fuel) c None message.

Definition call_failed (c : cid) (message : mid) (err : error) : M unit :=
  call_callback c (CbFailure {| ei_component := c; ei_message := message; ei_cause := err |}).

(** ** Component kinds and their factories *)

Definition ESBLoggerComponent (callback : option callback) : M cid :=
  ESBComponent ∅ FnLogger callback.

Definition createLoggerComponent (callback : option callback) : M cid :=
  ESBLoggerComponent callback.

Definition ESBMapperComponent (objectMapper : object_mapper) (map : value) : M cid :=
  ESBComponent {["map" := map]} (FnMapper objectMapper) None.

Definition createMapperComponent (objectMapper : object_mapper) (map : value) : M cid :=
  ESBMapperComponent objectMapper map.

Definition ESBSleepComponent (miliseconds : value) : M cid :=
  ESBComponent {["sleepMiliseconds" := miliseconds]} FnSleep None.

Definition createSleepComponent (miliseconds : value) : M cid :=
  ESBSleepComponent miliseconds.

Definition ESBVarSetComponent (variableName : value) : M cid :=
  ESBComponent {["variableName" := variableName]} FnVarSet None.

Definition ESBVarGetComponent (variableName : value) : M cid :=
  ESBComponent {["variableName" := variableName]} FnVarGet None.

Definition createVarComponent (variableName : value) (operation : string) : M cid :=
  if String.eqb (toUpperCase operation) "SET"
  then ESBVarSetComponent variableName
  else ESBVarGetComponent variableName.

Definition ESBCombineComponent (variableName : value) : M cid :=
  ESBComponent {["variableName" := variableName]} FnCombine None.

Definition createCombineComponent (variableName : value) : M cid :=
  ESBCombineComponent variableName.

Definition ESBCallComponent (callback : option callback)
    (requestURL method pathArguments : value) : M cid :=
  ESBComponent {["URL" := requestURL; "method" := method; "pathArguments" := pathArguments]}
               (FnCall pathArguments) callback.

(** [createCallComponent] passes five arguments to a constructor that takes
    four. *)
Definition createCallComponent (callback : option callback)
    (host URI method pathArguments : value) : M cid :=
  ESBCallComponent callback host URI method.

Definition ESBResultComponent (callback : option callback) : M cid :=
  ESBComponent ∅ FnResult callback.

Definition createResultComponent (callback : option callback) : M cid :=
  ESBResultComponent callback.

(** ** Client code acting on payloads

    What the code around the library does to payload data between two
    components: object literals and property assignments. *)

(** Evaluation of an object literal. *)
Definition new_object (o : obj) : M value := allocate o.

(** [target[k] = v], for a data property [k]. *)
Definition assign_field (target : value) (k : string) (v : value) : M unit :=
  match target with
  | VRef l =>
      λ w, match objs w !! l with
           | Some o => (Ok tt, set_heap (<[l := <[k := v]> o]> (objs w)) (fresh w) w)
           | None => (Throw (TypeError "object is undefined"), w)
           end
  | VUndef | VNull => throw (TypeError "Cannot set property of undefined or null")
  | VBuiltin _ => unsupported
  | _ => ret tt
  end.

(** [target[k]], for a data property [k]. *)
Definition read_field (target : value) (k : string) : M value :=
  match target with
  | VRef l =>
      λ w, match objs w !! l with
           | Some o => (Ok (default VUndef (o !! k)), w)
           | None => (Throw (TypeError "object is undefined"), w)
           end
  | VUndef | VNull => throw (TypeError "Cannot read property of undefined or null")
  | _ => ret VUndef
  end.

(** [message.payload[k] = v]. *)
Definition assign_payload_field (m : mid) (k : string) (v : value) : M unit :=
  let* msg := get_msg m in assign_field (m_payload msg) k v.

(** Any later mutation of the payload of message [m], seen as a relation
    between the world before and the world after: the payload may be
    replaced, objects reachable from the payload may change in any way and
    new objects may be allocated (the allocation pointer never goes back);
    every other existing object, the variables and the original payload of
    [m] stay as they are. *)
Definition payload_mutation (m : mid) (w w2 : world) : Prop :=
  ∃ msg msg2,
    msgs w !! m = Some msg ∧ msgs w2 !! m = Some msg2 ∧
    m_originalPayload msg2 = m_originalPayload msg ∧
    m_vars msg2 = m_vars msg ∧
    fresh w ≤ fresh w2 ∧
    ∀ x o, objs w !! x = Some o → ¬ reachable (objs w) (m_payload msg) x →
           objs w2 !! x = Some o.




(** A set of locations closed under following references. *)
Definition closed_set (h : heap) (X : gset loc) : Prop :=
  ∀ l l', l ∈ X → points_to h l l' → l' ∈ X.

(** Running a computation from a world. *)
Definition result_of {A} (m : M A) (w : world) : res A := (m w).1.
Definition world_after {A} (m : M A) (w : world) : world := (m w).2.

(** ** Properties of computations *)

(** A computation that leaves the component store as it is. *)
Definition keeps_comps {A} (x : M A) : Prop := ∀ w, comps (x w).2 = comps w.

Definition is_logger (fn : workfn) : bool :=
  match fn with FnLogger => true | _ => false end.

(** The events recorded by [send] before the work function runs. *)
Definition send_entry (fn : workfn) (c : cid) (m : mid) (msg : esb_message) : list event :=
  (if is_logger fn then [ConsoleLog c m] else []) ++
  [DbgStarted c (correlationId (m_context msg))].

(** ** The calls a client can make *)

Inductive api_call :=
  | CreateMessage (payload callerUser callerSystem callerCorrelationId : value)
  | CreateLoggerComponent (callback : option callback)
  | CreateMapperComponent (objectMapper : object_mapper) (map : value)
  | CreateSleepComponent (miliseconds : value)
  | CreateVarComponent (variableName : value) (operation : string)
  | CreateCombineComponent (variableName : value)
  | CreateCallComponent (callback : option callback) (host URI method pathArguments : value)
  | CreateResultComponent (callback : option callback)
  | Connect (c : cid) (channel : option string) (component : cid)
  | Send (fuel : nat) (c : cid) (message : mid)
  | Post (c : cid) (message : mid)
  | RunImmediate (fuel : nat)
  | TimerFired (fuel : nat) (c : cid) (message : mid)
  | CallResponded (fuel : nat) (c : cid) (message : mid) (responseBody : value)
  | CallFailed (c : cid) (message : mid) (err : error)
  | NewObject (o : obj)
  | AssignField (target : value) (k : string) (v : value)
  | SetPayload (message : mid) (v : value).

Definition run_call (a : api_call) : M unit :=
  match a with
  | CreateMessage p u s ci => createMessage p u s ci >> ret tt
  | CreateLoggerComponent cb => createLoggerComponent cb >> ret tt
  | CreateMapperComponent om map => createMapperComponent om map >> ret tt
  | CreateSleepComponent ms => createSleepComponent ms >> ret tt
  | CreateVarComponent n op => createVarComponent n op >> ret tt
  | CreateCombineComponent n => createCombineComponent n >> ret tt
  | CreateCallComponent cb host uri method path =>
      createCallComponent cb host uri method path >> ret tt
  | CreateResultComponent cb => createResultComponent cb >> ret tt
  | Connect c channel component => connect c channel component
  | Send fuel c m => send fuel c m
  | Post c m => post c m
  | RunImmediate fuel => run_immediate fuel
  | TimerFired fuel c m => timer_fired fuel c m
  | CallResponded fuel c m body => call_responded fuel c m body
  | CallFailed c m err => call_failed c m err
  | NewObject o => new_object o >> ret tt
  | AssignField target k v => assign_field target k v
  | SetPayload m v => set_payload m v
  end.

(** The world after a sequence of calls; a call that raises leaves the
    world as it was when the error escaped. *)
Definition run_calls (calls : list api_call) (w : world) : world :=
  foldl (λ w a, (run_call a w).2) w calls.

(** No component has an own property named [context]. *)
Definition no_context (w : world) : Prop :=
  ∀ c this, comps w !! c = Some this → c_fields this !! "context" = None.

(** ** Scenarios

    Small programs against the library, run from the empty world. *)

(** A callback that records its invocation and returns. *)
Definition recorder (n : nat) : callback :=
  {| cb_name := n; cb_raises := λ _, None |}.

Definition called (e : event) : bool :=
  match e with Called _ _ => true | _ => false end.

(** The invocations of callbacks in a trace. *)
Definition calls_in (t : list event) : list event := filter (λ e, called e = true) t.

(** A message with payload [{x: 1}], a Variable-set and a Variable-get
    component for the variable [snap]. *)
Definition snap_setup : M unit :=
  let* p := new_object {["x" := VNum 1]} in
  let* m := createMessage p VUndef VUndef VUndef in
  let* s := createVarComponent (VStr "snap") "SET" in
  let* g := createVarComponent (VStr "snap") "get" in
  ret tt.


(** The same after the Variable-set component has been sent the message. *)
Definition snap_stored_world : world :=
  world_after (snap_setup >> send 2 0 0) empty_world.

(** [payload = {a: 1}]; construct; [payload.a = 2]; read [payload.a] and
    [originalPayload.a]. *)
Definition original_payload_scenario : M (value * value) :=
  let* p := new_object {["a" := VNum 1]} in
  let* m := createMessage p VUndef VUndef VUndef in
  assign_payload_field m "a" (VNum 2) >>
  let* msg := get_msg m in
  let* a := read_field (m_payload msg) "a" in
  let* oa := read_field (m_originalPayload msg) "a" in
  ret (a, oa).

(** set("snap") on [{x: 1}]; [payload.x = 2]; read [vars.snap.x];
    get("snap"); read [payload.x]; is the payload the snapshot object? *)
Definition round_trip_scenario : M (value * value * bool) :=
  snap_setup >>
  send 2 0 0 >>
  assign_payload_field 0 "x" (VNum 2) >>
  let* msg := get_msg 0 in
  let snap := default VUndef (m_vars msg !! "snap") in
  let* sx := read_field snap "x" in
  send 2 1 0 >>
  let* msg' := get_msg 0 in
  let* px := read_field (m_payload msg') "x" in
  ret (sx, px, bool_decide (m_payload msg' = snap)).


(** [vars.v = {x: 1}], [payload = {x: 2, y: 3}], then Merge of [v] wired to
    a recording sink. *)
Definition merge_setup : M unit :=
  let* p := new_object {["x" := VNum 1]} in
  let* m := createMessage p VUndef VUndef VUndef in
  let* s := createVarComponent (VStr "v") "SET" in
  let* cmb := createCombineComponent (VStr "v") in
  let* r := createResultComponent (Some (recorder 7)) in
  connect cmb None r >>
  send 2 s m >>
  let* q := new_object {["x" := VNum 2; "y" := VNum 3]} in
  set_payload m q.

Definition merge_world : world := world_after merge_setup empty_world.

Definition merge_scenario : M (value * value * list event) :=
  merge_setup >>
  send 3 1 0 >>
  let* msg := get_msg 0 in
  let* x := read_field (m_payload msg) "x" in
  let* y := read_field (m_payload msg) "y" in
  λ w, (Ok (x, y, calls_in (trace w)), w).

(** The same with the payload replaced by the primitive [v] before the
    Merge: the payload at the end and the callbacks invoked. *)
Definition merge_primitive_scenario (v : value) : M (value * list event) :=
  merge_setup >>
  set_payload 0 v >>
  send 3 1 0 >>
  let* msg := get_msg 0 in
  λ w, (Ok (m_payload msg, calls_in (trace w)), w).




(** A Merge component, which has no failure sink, on a message without
    payload. *)
Definition no_sink_scenario : M unit :=
  let* m := createMessage VNull VUndef VUndef VUndef in
  let* cmb := createCombineComponent (VStr "v") in
  send 3 cmb m.

(** A Logger with a recording failure sink in front of that Merge. *)
Definition sink_setup : M unit :=
  let* m := createMessage VNull VUndef VUndef VUndef in
  let* lg := createLoggerComponent (Some (recorder 9)) in
  let* cmb := createCombineComponent (VStr "v") in
  connect lg None cmb.

Definition sink_world : world := world_after sink_setup empty_world.

(** The Logger is sent the message: the callbacks invoked. *)
Definition sink_scenario : M (list event) :=
  sink_setup >>
  send 3 0 0 >>
  λ w, (Ok (calls_in (trace w)), w).

(** A Logger and two recording sinks. *)
Definition fanout_setup : M unit :=
  let* m := createMessage VNull VUndef VUndef VUndef in
  let* lg := createLoggerComponent None in
  let* r1 := createResultComponent (Some (recorder 1)) in
  let* r2 := createResultComponent (Some (recorder 2)) in
  ret tt.

Definition fanout_world : world := world_after fanout_setup empty_world.

(** The first sink is connected twice, around the second; then the Logger
    is sent the message. *)
Definition fanout_scenario : M (list event) :=
  fanout_setup >>
  connect 0 None 1 >>
  connect 0 (Some "default") 2 >>
  connect 0 None 1 >>
  send 3 0 0 >>
  λ w, (Ok (calls_in (trace w)), w).

(** [post] to a recording sink: the callbacks invoked when [post] returns,
    and after the next turn of the loop. *)
Definition post_scenario : M (list event * list event) :=
  fanout_setup >>
  post 1 0 >>
  let* before := (λ w, (Ok (calls_in (trace w)), w)) in
  run_immediate 3 >>
  λ w, (Ok (before, calls_in (trace w)), w).

(** ** The response callbacks of the Call component *)

(** [ESBCallComponent.prototype._retrieveResponseStatus]: the status message
    and code found at [connection._httpMessage.res] of the response. *)
Definition retrieveResponseStatus (restClientResponse : value) : M (value * value) :=
  let* connection := read_field restClientResponse "connection" in
  let* httpMessage := read_field connection "_httpMessage" in
  let* r := read_field httpMessage "res" in
  let* statusMessage := read_field r "statusMessage" in
  let* statusCode := read_field r "statusCode" in
  ret (statusMessage, statusCode).

(** The callback that the Call component hands to the REST client, run when
    the response arrives. *)
Definition on_response (fuel : nat) (c : cid) (message : mid)
    (responseBody response : value) : M unit :=
  let* status := retrieveResponseStatus response in
  debugCall (DbgWork c message "received response with body") >>
  set_payload message responseBody >>
  debugComponent (DbgWork c message "received response") >>
  next (send fuel) c None message.

(** ** What a dispatch leaves in place *)

(** The later state of a message keeps the context, the original payload and
    every variable name of the earlier one. *)
Definition msg_stable (a b : esb_message) : Prop :=
  m_context b = m_context a ∧
  m_originalPayload b = m_originalPayload a ∧
  ∀ k, is_Some (m_vars a !! k) → is_Some (m_vars b !! k).

(** The later world has the components, the queue of immediates and the
    messages of the earlier one, each message stable, and its trace, timers
    and requests extend the earlier ones. *)
Definition stable (w w' : world) : Prop :=
  comps w' = comps w ∧
  immediates w' = immediates w ∧
  next_mid w' = next_mid w ∧
  trace w `prefix_of` trace w' ∧
  timers w `prefix_of` timers w' ∧
  requests w `prefix_of` requests w' ∧
  ∀ m, option_Forall2 msg_stable (msgs w !! m) (msgs w' !! m).

Definition preserves {A} (x : M A) : Prop := ∀ w, stable w (x w).2.

(** The context and the original payload of a message. *)
Definition msg_identity (x : esb_message) : msg_context * value :=
  (m_context x, m_originalPayload x).

(** ** Further scenarios *)

(** A completion callback that raises [e] on [(null, message)] and returns
    on a failure record, and a callback that always raises [e]. *)
Definition raising_on_result (n : nat) (e : error) : callback :=
  {| cb_name := n;
     cb_raises := λ a, match a with CbResult _ => Some e | CbFailure _ => None end |}.

Definition raising (n : nat) (e : error) : callback :=
  {| cb_name := n; cb_raises := λ _, Some e |}.

Definition boom : error := Raised (VStr "boom").

(** A mapping that returns [r] whatever the source. *)
Definition constant_mapper (r : value) : object_mapper :=
  λ h nx _ _, (Ok r, h, nx).

(** A mapping that raises [e] whatever the source. *)
Definition failing_mapper (e : error) : object_mapper :=
  λ h nx _ _, (Throw e, h, nx).

(** Two sinks with callbacks that raise. *)
Definition grumpy_world : world :=
  world_after
    (let* m := createMessage VNull VUndef VUndef VUndef in
     let* r1 := createResultComponent (Some (raising_on_result 3 boom)) in
     let* r2 := createResultComponent (Some (raising 4 boom)) in
     ret tt) empty_world.

(** A Logger fanning out to a sink, a Merge component and a second sink, and
    a message whose payload is [null]. *)
Definition abort_setup : M unit :=
  let* m := createMessage VNull VUndef VUndef VUndef in
  let* lg := createLoggerComponent None in
  let* r1 := createResultComponent (Some (recorder 1)) in
  let* cmb := createCombineComponent (VStr "v") in
  let* r2 := createResultComponent (Some (recorder 2)) in
  connect lg None r1 >> connect lg None cmb >> connect lg None r2.

Definition abort_world : world := world_after abort_setup empty_world.

(** The fan-out itself: its result and the callbacks invoked. *)
Definition abort_scenario : res unit * list event :=
  let r := (abort_setup >> next (send 2) 0 None 0) empty_world in
  (r.1, calls_in (trace r.2)).

(** A Sleep component of 10 ms wired to a sink. *)
Definition sleep_world : world :=
  world_after
    (let* m := createMessage VNull VUndef VUndef VUndef in
     let* s := createSleepComponent (VNum 10) in
     let* r := createResultComponent (Some (recorder 1)) in
     connect s None r) empty_world.

(** A Mapper component on a message with payload [{a: 1}]. *)
Definition mapper_world : world :=
  world_after
    (let* p := new_object {["a" := VNum 1]} in
     let* m := createMessage p VUndef VUndef VUndef in
     let* mp := createMapperComponent (constant_mapper (VNum 7)) VUndef in
     ret tt) empty_world.

(** A response with status 500 (object 3), a response whose connection has
    no HTTP message (object 5), a message and a Call component. *)
Definition response_world : world :=
  world_after
    (let* r := new_object {["statusMessage" := VStr "Internal Server Error";
                            "statusCode" := VNum 500]} in
     let* hm := new_object {["res" := r]} in
     let* conn := new_object {["_httpMessage" := hm]} in
     let* resp := new_object {["connection" := conn]} in
     let* conn2 := new_object {["_httpMessage" := VNull]} in
     let* resp2 := new_object {["connection" := conn2]} in
     let* m := createMessage VNull VUndef VUndef VUndef in
     let* call := createCallComponent (Some (recorder 5)) (VStr "http://host")
                    (VStr "/users") (VStr "GET") VUndef in
     ret tt) empty_world.

(** A message with payload [{x: 1}] and a Variable-set component whose
    variable name is the number [1e21]. *)
Definition numeric_name_world : world :=
  world_after
    (let* p := new_object {["x" := VNum 1]} in
     let* m := createMessage p VUndef VUndef VUndef in
     let* s := createVarComponent (VNum (10 ^ 21)) "set" in
     ret tt) empty_world.

(** A message with payload [5] is sent to a Variable-get component for a
    name under which no variable is stored; the payload afterwards. *)
Definition unset_name_scenario (name : string) : M value :=
  let* m := createMessage (VNum 5) VUndef VUndef VUndef in
  let* g := createVarComponent (VStr name) "get" in
  send 2 g m >>
  let* msg := get_msg m in
  ret (m_payload msg).

(** A message is sent to a Variable-set component for the name
    [__proto__]; the variables afterwards. *)
Definition proto_name_scenario (payload : M value) : M (gmap string value) :=
  let* p := payload in
  let* m := createMessage p VUndef VUndef VUndef in
  let* s := createVarComponent (VStr "__proto__") "set" in
  send 2 s m >>
  let* msg := get_msg m in
  ret (m_vars msg).

(** What a Logger connected to itself records each time it is entered. *)
Definition cycle_round (c : cid) (m : mid) (msg : esb_message) : list event :=
  [ConsoleLog c m; DbgStarted c (correlationId (m_context msg)); DbgPassing c m c "default"].

(** A Logger connected to itself. *)
Definition loop_world : world :=
  world_after
    (let* m := createMessage VNull VUndef VUndef VUndef in
     let* lg := createLoggerComponent None in
     connect lg None lg) empty_world.

(** ** Facts about the heap *)

Lemma elem_of_obj_refs (o : obj) (l : loc) :
  l ∈ obj_refs o ↔ ∃ k, o !! k = Some (VRef l).
Proof.
  unfold obj_refs. rewrite elem_of_list_to_set, list_elem_of_omap. split.
  - intros (v & Hv & Hl). destruct v; simplify_eq/=.
    apply list_elem_of_fmap in Hv as ([k v] & -> & Hkv).
    apply elem_of_map_to_list in Hkv. eauto.
  - intros (k & Hk). exists (VRef l). split; [|done].
    apply list_elem_of_fmap. exists (k, VRef l). split; [done|].
    by apply elem_of_map_to_list.
Qed.

Lemma elem_of_heap_succs (h : heap) (l l' : loc) :
  l' ∈ heap_succs h l ↔ points_to h l l'.
Proof.
  unfold heap_succs, points_to. destruct (h !! l) as [o|] eqn:Ho.
  - rewrite elem_of_obj_refs. split.
    + intros [k Hk]. eauto.
    + intros (o' & k & [= <-] & Hk). eauto.
  - split; [intros Hx; by apply not_elem_of_empty in Hx|].
    intros (o' & k & [=] & _).
Qed.

Lemma obj_closedb_spec (h : heap) (o : obj) :
  obj_closedb h o = true ↔ ∀ k l, o !! k = Some (VRef l) → is_Some (h !! l).
Proof.
  unfold obj_closedb. rewrite forallb_forall. split.
  - intros H k l Hk.
    assert (HIn : In (VRef l) (map_to_list o).*2).
    { apply list_elem_of_In, list_elem_of_fmap. exists (k, VRef l).
      split; [done|]. by apply elem_of_map_to_list. }
    apply H in HIn. by apply bool_decide_eq_true in HIn.
  - intros H v Hv. apply list_elem_of_In, list_elem_of_fmap in Hv as ([k v'] & -> & Hkv).
    apply elem_of_map_to_list in Hkv. destruct v'; simpl; try done.
    apply bool_decide_eq_true. eauto.
Qed.

Lemma heap_closed_spec (h : heap) (nx : loc) :
  heap_closed h nx ↔
  ∀ l o, h !! l = Some o →
    l < nx ∧ ∀ k l', o !! k = Some (VRef l') → is_Some (h !! l').
Proof.
  unfold heap_closed, heap_closedb. rewrite forallb_forall. split.
  - intros H l o Hl.
    assert (HIn : In (l, o) (map_to_list h)).
    { apply list_elem_of_In. by apply elem_of_map_to_list. }
    apply H in HIn. apply andb_true_iff in HIn as [H1 H2]. simpl in *.
    apply Nat.ltb_lt in H1. split; [done|]. by apply obj_closedb_spec.
  - intros H [l o] HIn. apply list_elem_of_In, elem_of_map_to_list in HIn.
    destruct (H l o HIn) as [H1 H2]. simpl.
    apply andb_true_iff. split; [by apply Nat.ltb_lt | by apply obj_closedb_spec].
Qed.

Lemma val_ok_ref (h : heap) (l : loc) : val_ok h (VRef l) ↔ is_Some (h !! l).
Proof. unfold val_ok. simpl. apply bool_decide_eq_true. Qed.

Lemma heap_closed_lt (h : heap) (nx l : loc) :
  heap_closed h nx → is_Some (h !! l) → l < nx.
Proof. intros Hc [o Ho]. by destruct (proj1 (heap_closed_spec h nx) Hc l o Ho). Qed.

Lemma heap_closed_points_to (h : heap) (nx l l' : loc) :
  heap_closed h nx → points_to h l l' → is_Some (h !! l').
Proof.
  intros Hc (o & k & Ho & Hk).
  destruct (proj1 (heap_closed_spec h nx) Hc l o Ho) as [_ H]. eauto.
Qed.

Lemma heap_closed_rtc (h : heap) (nx l x : loc) :
  heap_closed h nx → is_Some (h !! l) → rtc (points_to h) l x → is_Some (h !! x).
Proof.
  intros Hc Hl Hr. induction Hr as [|a b c Hab _ IH]; [done|].
  apply IH. eauto using heap_closed_points_to.
Qed.

(** *** The reachable set computed by [reach] *)

Section reach.
Context (h : heap).

Lemma elem_of_reach_step (X : gset loc) (x : loc) :
  x ∈ reach_step h X ↔ x ∈ X ∨ ∃ l, l ∈ X ∧ points_to h l x.
Proof.
  unfold reach_step. rewrite elem_of_union, elem_of_set_bind.
  setoid_rewrite elem_of_heap_succs. naive_solver.
Qed.

Lemma reach_step_incr (X : gset loc) : X ⊆ reach_step h X.
Proof. intros x Hx. apply elem_of_reach_step. by left. Qed.

Lemma reach_step_fix_closed (X : gset loc) :
  reach_step h X = X → closed_set h X.
Proof.
  intros Hfix l l' Hl Hp. rewrite <- Hfix. apply elem_of_reach_step. eauto.
Qed.

Lemma iter_step_sound (n : nat) (l x : loc) :
  x ∈ Nat.iter n (reach_step h) {[l]} → rtc (points_to h) l x.
Proof.
  revert x. induction n as [|n IH]; simpl; intros x Hx.
  - apply elem_of_singleton in Hx as ->. done.
  - apply elem_of_reach_step in Hx as [Hx | (y & Hy & Hp)]; [by apply IH|].
    eapply rtc_r; [by apply IH | done].
Qed.

Lemma iter_step_root (n : nat) (l : loc) : l ∈ Nat.iter n (reach_step h) {[l]}.
Proof.
  induction n as [|n IH]; simpl; [set_solver|]. by apply reach_step_incr.
Qed.

Lemma iter_step_fix (n k : nat) (X : gset loc) :
  reach_step h (Nat.iter n (reach_step h) X) = Nat.iter n (reach_step h) X →
  Nat.iter (k + n) (reach_step h) X = Nat.iter n (reach_step h) X.
Proof. intros Hfix. induction k as [|k IH]; simpl; [done|]. by rewrite IH. Qed.

(** Either the iteration has stabilised, or it has found at least one new
    object per round. *)
Lemma iter_step_progress (n : nat) (X : gset loc) :
  reach_step h (Nat.iter n (reach_step h) X) = Nat.iter n (reach_step h) X
  ∨ n + size X ≤ size (Nat.iter n (reach_step h) X).
Proof.
  induction n as [|n IH]; simpl; [right; lia|].
  destruct IH as [Hfix | Hsz]; [left; by rewrite !Hfix|].
  set (Y := Nat.iter n (reach_step h) X) in *.
  destruct (decide (reach_step h Y = Y)) as [Heq | Hne].
  - left. by rewrite !Heq.
  - right. assert (Y ⊂ reach_step h Y) as Hsub.
    { split; [apply reach_step_incr|]. intros Hback. apply Hne.
      apply set_eq. intros x. split; [apply Hback | apply reach_step_incr]. }
    apply subset_size in Hsub. lia.
Qed.

Lemma iter_step_dom (nx n : nat) (l : loc) :
  heap_closed h nx → is_Some (h !! l) →
  Nat.iter n (reach_step h) {[l]} ⊆ dom h.
Proof.
  intros Hc Hl x Hx. apply elem_of_dom.
  eapply heap_closed_rtc; eauto using iter_step_sound.
Qed.

Lemma reach_closed (nx : nat) (l : loc) :
  heap_closed h nx → is_Some (h !! l) → closed_set h (reach h (VRef l)).
Proof.
  intros Hc Hl. simpl. apply reach_step_fix_closed.
  destruct (iter_step_progress (size h) {[l]}) as [Hfix | Hsz]; [done|].
  exfalso. rewrite size_singleton in Hsz.
  pose proof (subseteq_size _ _ (iter_step_dom nx (size h) l Hc Hl)) as Hle.
  rewrite size_dom in Hle. lia.
Qed.


End reach.


(** *** Deep equality *)



Lemma deq_sym (n : nat) (h1 h2 : heap) (v1 v2 : value) :
  deq n h1 v1 h2 v2 → deq n h2 v2 h1 v1.
Proof.
  revert v1 v2. induction n as [|n IH]; intros v1 v2 H12.
  - destruct v1, v2; simpl in *; try done; congruence.
  - destruct v1, v2; simpl in *; try done; try congruence.
    destruct H12 as (o1 & o2 & Ho1 & Ho2 & H12).
    exists o2, o1. split_and!; [done..|]. intros k.
    destruct (H12 k); constructor; eauto.
Qed.



(** *** Correctness of [clone] *)

Lemma copy_region_lookup (h : heap) (nx : nat) (R : gset loc) (k : loc) (o : obj) :
  copy_region h nx R !! k = Some o ↔
  ∃ x o0, k = nx + x ∧ x ∈ R ∧ h !! x = Some o0 ∧ o = shift_obj nx o0.
Proof.
  unfold copy_region. rewrite lookup_kmap_Some by apply _. split.
  - intros (x & -> & Hx). apply lookup_fmap_Some in Hx as (o0 & <- & Hx).
    apply map_lookup_filter_Some in Hx as [Hx HR]. eauto 10.
  - intros (x & o0 & -> & HR & Hx & ->). exists x. split; [done|].
    apply lookup_fmap_Some. exists o0. split; [done|].
    by apply map_lookup_filter_Some.
Qed.

Lemma shift_obj_lookup (nx : nat) (o : obj) (k : string) :
  shift_obj nx o !! k = shift_val nx <$> o !! k.
Proof. unfold shift_obj. by rewrite lookup_fmap. Qed.

Section clone.
Context (h : heap) (nx : nat) (l : loc).
Context (Hc : heap_closed h nx) (Hl : is_Some (h !! l)).

Local Abbreviation R := (reach h (VRef l)).
Local Abbreviation h' := (h ∪ copy_region h nx (reach h (VRef l))).

Lemma clone_ref_eq : clone h nx (VRef l) = (VRef (nx + l), h', nx + nx).
Proof. done. Qed.

Lemma clone_lookup_old (k : loc) (o : obj) :
  h !! k = Some o → h' !! k = Some o.
Proof. intros Hk. apply lookup_union_Some_raw. by left. Qed.

Lemma clone_lookup_below (k : loc) : k < nx → h' !! k = h !! k.
Proof.
  intros Hk. destruct (h !! k) as [o|] eqn:Ho.
  - by apply clone_lookup_old.
  - apply lookup_union_None. split; [done|].
    destruct (copy_region h nx R !! k) as [o|] eqn:Hcp; [|done].
    apply copy_region_lookup in Hcp as (x & o0 & -> & _). lia.
Qed.

Lemma clone_lookup_new (x : loc) (o : obj) :
  x ∈ R → h !! x = Some o → h' !! (nx + x) = Some (shift_obj nx o).
Proof.
  intros HR Hx. apply lookup_union_Some_raw. right. split.
  - destruct (h !! (nx + x)) as [o'|] eqn:Ho'; [|done].
    assert (nx + x < nx) by eauto using heap_closed_lt. lia.
  - apply copy_region_lookup. eauto 10.
Qed.

Lemma clone_lookup_inv (k : loc) (o : obj) :
  h' !! k = Some o →
  (k < nx ∧ h !! k = Some o) ∨
  (∃ x o0, k = nx + x ∧ x ∈ R ∧ x < nx ∧ h !! x = Some o0 ∧ o = shift_obj nx o0).
Proof.
  intros Hk. apply lookup_union_Some_raw in Hk as [Hk | [_ Hk]].
  - left. split; [|done]. eauto using heap_closed_lt.
  - right. apply copy_region_lookup in Hk as (x & o0 & -> & HR & Hx & ->).
    exists x, o0. split_and!; try done. eauto using heap_closed_lt.
Qed.

Lemma clone_root : l ∈ R.
Proof. apply iter_step_root. Qed.

Lemma clone_R_closed : closed_set h R.
Proof. by eapply reach_closed. Qed.

Lemma clone_R_dom (x : loc) : x ∈ R → is_Some (h !! x).
Proof. intros Hx. apply elem_of_dom. by eapply iter_step_dom. Qed.

Lemma clone_heap_closed : heap_closed h' (nx + nx).
Proof.
  apply heap_closed_spec. intros k o Hk.
  apply clone_lookup_inv in Hk as [[Hlt Hk] | (x & o0 & -> & HR & Hlt & Hx & ->)].
  - split; [lia|]. intros key y Hy.
    assert (is_Some (h !! y)) as [oy Hoy].
    { eapply heap_closed_points_to; [done|]. by exists o, key. }
    exists oy. by apply clone_lookup_old.
  - split; [lia|]. intros key y Hy. rewrite shift_obj_lookup in Hy.
    destruct (o0 !! key) as [v|] eqn:Hv; [|done].
    destruct v as [| | | | |y0|?]; simplify_eq/=.
    assert (y0 ∈ R) as HyR.
    { eapply clone_R_closed; [done|]. by exists o0, key. }
    destruct (clone_R_dom y0 HyR) as [oy Hoy].
    exists (shift_obj nx oy). by apply clone_lookup_new.
Qed.

(** The copy lives entirely in freshly allocated objects. *)
Lemma clone_fresh (x : loc) : reachable h' (VRef (nx + l)) x → nx ≤ x.
Proof.
  intros (l0 & [= <-] & Hr).
  assert (nx ≤ nx + l) as Hge by lia. revert Hge.
  generalize dependent (nx + l). intros a Hr.
  induction Hr as [|a b c (o & key & Ho & Hk) _ IH]; [done|].
  intros Hge. apply IH. apply clone_lookup_inv in Ho as [[Hlt _] | (x0 & o0 & -> & _ & _ & _ & ->)]; [lia|].
  rewrite shift_obj_lookup in Hk.
  destruct (o0 !! key) as [v|]; [|done]. destruct v; simplify_eq/=. lia.
Qed.

Lemma clone_deq (n : nat) (x : loc) :
  x ∈ R → deq n h (VRef x) h' (VRef (nx + x)).
Proof.
  revert x. induction n as [|n IH]; intros x HR; simpl; [done|].
  destruct (clone_R_dom x HR) as [o Ho].
  exists o, (shift_obj nx o). split_and!; [done|by apply clone_lookup_new|].
  intros key. rewrite shift_obj_lookup.
  destruct (o !! key) as [v|] eqn:Hv; constructor.
  destruct v as [| | | | |y|?]; simpl; try (by destruct n).
  apply (IH y). eapply clone_R_closed; [done|]. by exists o, key.
Qed.

Lemma clone_deep_equal : deep_equal h (VRef l) h' (VRef (nx + l)).
Proof. intros n. apply clone_deq, clone_root. Qed.

Lemma clone_val_ok : val_ok h' (VRef (nx + l)).
Proof.
  apply val_ok_ref. destruct Hl as [o Ho].
  exists (shift_obj nx o). apply clone_lookup_new; [apply clone_root | done].
Qed.
End clone.

(** The contract of [clone], for any value. *)
Lemma clone_spec (h : heap) (nx : nat) (v v' : value) (h' : heap) (nx' : nat) :
  heap_closed h nx → val_ok h v → clone h nx v = (v', h', nx') →
  heap_closed h' nx' ∧ val_ok h' v' ∧ nx ≤ nx' ∧
  (∀ k, k < nx → h' !! k = h !! k) ∧
  (∀ x, reachable h' v' x → nx ≤ x) ∧
  deep_equal h v h' v'.
Proof.
  intros Hc Hv Hcl. destruct v as [| | | | |l|?];
    try (simplify_eq/=; split_and!;
         [done | done | lia | done | by intros x (? & [=] & _) | by intros []]).
  apply val_ok_ref in Hv. rewrite clone_ref_eq in Hcl. simplify_eq.
  split_and!.
  - by apply clone_heap_closed.
  - by apply clone_val_ok.
  - lia.
  - intros k Hk. by eapply clone_lookup_below.
  - intros x. by eapply clone_fresh.
  - by apply clone_deep_equal.
Qed.



(** *** Old and new objects after an allocation *)








(** ** Mutations of the payload *)

Lemma set_payload_mutation (m : mid) (v : value) (w : world) (msg : esb_message) :
  msgs w !! m = Some msg →
  set_payload m v w = (Ok tt, set_msgs (<[m := with_payload v msg]> (msgs w)) (next_mid w) w) ∧
  payload_mutation m w (world_after (set_payload m v) w).
Proof.
  intros Hm. unfold world_after, set_payload, bind, get_msg, put_msg, modify.
  rewrite Hm. split; [done|]. exists msg, (with_payload v msg). simpl.
  rewrite lookup_insert_eq. split_and!; done.
Qed.

Lemma assign_payload_field_mutation (m : mid) (k : string) (v : value) (w : world)
    (msg : esb_message) (l : loc) (o : obj) :
  msgs w !! m = Some msg → m_payload msg = VRef l → objs w !! l = Some o →
  assign_payload_field m k v w =
    (Ok tt, set_heap (<[l := <[k := v]> o]> (objs w)) (fresh w) w) ∧
  payload_mutation m w (world_after (assign_payload_field m k v) w).
Proof.
  intros Hm Hp Hl. unfold world_after, assign_payload_field, bind, get_msg.
  rewrite Hm, Hp. simpl. rewrite Hl. split; [done|].
  exists msg, msg. simpl. split_and!; try done.
  intros x o' Hx Hnr. rewrite lookup_insert_ne; [done|].
  intros <-. apply Hnr. rewrite Hp. exists l. split; [done|]. apply rtc_refl.
Qed.

(** ** The message envelope *)

Lemma createMessage_eq (p u s ci : value) (w : world) :
  createMessage p u s ci w =
  (Ok (next_mid w),
   set_msgs (<[next_mid w :=
                 {| m_payload := p;
                    m_context := {| createdTimestamp := now w; correlationId := uuids w;
                                    caller := {| caller_user := u; caller_system := s;
                                                 caller_correlationId := ci |} |};
                    m_originalPayload := (clone (objs w) (fresh w) p).1.1;
                    m_vars := ∅ |}]> (msgs w)) (S (next_mid w))
     (set_heap (clone (objs w) (fresh w) p).1.2 (clone (objs w) (fresh w) p).2
        (set_uuids (S (uuids w)) w))).
Proof.
  unfold createMessage, ESBMessage, bind, Date_now, uuid_v4, js_clone. simpl.
  destruct (clone (objs w) (fresh w) p) as [[v' h'] nx']. done.
Qed.


(** ** The work of the variable and merge components, up to [next] *)

Arguments work : simpl never.
Arguments next : simpl never.
Arguments send : simpl never.
Arguments clone : simpl never.

(** *** Reads and writes of [vars] *)



Lemma own_props_falsy (h : heap) (v : value) : truthy v = false → own_props h v = ∅.
Proof.
  destruct v as [| |b|z|s|l|?]; simpl; try done.
  destruct s; [done|]. simpl. discriminate.
Qed.

(** What the Merge component hands to [Object.assign] has the own
    properties of the variable that [vars] holds, none when it holds none. *)
Lemma merge_source_props (h : heap) (table : gmap string value) (k : string) :
  own_props h match get_property table k with
              | Data stored => if truthy stored then stored else VUndef
              | ThePrototype => VUndef
              end
  = own_props h (default VUndef (table !! k)).
Proof.
  unfold get_property. destruct (table !! k) as [v|]; simpl.
  - destruct (truthy v) eqn:Ht; [done|]. by rewrite (own_props_falsy _ v).
  - destruct (Object_prototype !! k); [done|]. by destruct (String.eqb k "__proto__").
Qed.

Lemma set_var_eq (m : mid) (k : string) (v : value) (w : world) (x : esb_message) :
  msgs w !! m = Some x → k ≠ "__proto__" →
  set_var m k v w = (Ok tt, set_msgs (<[m := with_var k v x]> (msgs w)) (next_mid w) w).
Proof.
  intros Hm Hk. unfold set_var, bind, get_msg. rewrite Hm.
  apply String.eqb_neq in Hk. by rewrite Hk.
Qed.

Section work_steps.
Context (snd : sender) (c : cid) (ctx : value) (m : mid) (w : world).
Context (this : esb_component) (msg : esb_message).
Context (Hthis : comps w !! c = Some this) (Hmsg : msgs w !! m = Some msg).

Lemma work_VarSet_eq :
  to_key (get_field this "variableName") ≠ "__proto__" →
  work snd FnVarSet c ctx m w =
  next snd c None m
    (set_trace (trace w ++ [DbgWork c m "stored payload"])
       (set_msgs (<[m := with_var (to_key (get_field this "variableName"))
                                  (clone (objs w) (fresh w) (m_payload msg)).1.1 msg]>
                    (msgs w)) (next_mid w)
          (set_heap (clone (objs w) (fresh w) (m_payload msg)).1.2
                    (clone (objs w) (fresh w) (m_payload msg)).2 w))).
Proof.
  intros Hk.
  cbv [work bind get_comp get_msg js_clone debugMessage emit modify].
  rewrite Hthis, Hmsg.
  destruct (clone (objs w) (fresh w) (m_payload msg)) as [[v' h'] nx']. simpl.
  by rewrite (set_var_eq m _ v' (set_heap h' nx' w) msg Hmsg Hk).
Qed.

Lemma work_VarGet_eq :
  work snd FnVarGet c ctx m w =
  next snd c None m
    (set_trace (trace w ++ [DbgWork c m "restored payload"])
       match get_property (m_vars msg) (to_key (get_field this "variableName")) with
       | Data stored =>
           if truthy stored
           then set_msgs (<[m := with_payload (clone (objs w) (fresh w) stored).1.1 msg]>
                            (msgs w)) (next_mid w)
                  (set_heap (clone (objs w) (fresh w) stored).1.2
                            (clone (objs w) (fresh w) stored).2 w)
           else w
       | ThePrototype =>
           set_msgs (<[m := with_payload (VRef (fresh w)) msg]> (msgs w)) (next_mid w)
             (set_heap (<[fresh w := ∅]> (objs w)) (S (fresh w)) w)
       end).
Proof.
  cbv [work bind get_comp get_msg js_clone allocate set_payload put_msg debugMessage emit
       modify ret].
  rewrite Hthis, Hmsg.
  destruct (get_property _ _) as [stored|]; simpl.
  - destruct (truthy stored); [|done].
    destruct (clone (objs w) (fresh w) stored) as [[v' h'] nx']. simpl.
    by rewrite Hmsg.
  - by rewrite Hmsg.
Qed.

Lemma work_Combine_eq (l : loc) (o : obj) :
  m_payload msg = VRef l → objs w !! l = Some o →
  work snd FnCombine c ctx m w =
  next snd c None m
    (set_trace (trace w ++ [DbgWork c m "combined"])
       (let stored := default VUndef (m_vars msg !! to_key (get_field this "variableName")) in
        set_heap (<[l := own_props (objs w) (if truthy stored then stored else VUndef) ∪ o]>
                    (objs w)) (fresh w) w)).
Proof.
  intros Hp Hl.
  cbv [work bind get_comp get_msg Object_assign debugMessage emit modify ret].
  rewrite Hthis, Hmsg, Hp. simpl. rewrite Hl. simpl. rewrite merge_source_props.
  set (stored := default VUndef _).
  assert (own_props (objs w) (if truthy stored then stored else VUndef)
          = own_props (objs w) stored) as ->; [|done].
  destruct (truthy stored) eqn:Ht; [done|]. by rewrite (own_props_falsy _ stored).
Qed.
End work_steps.

(** ** Variable-get *)




(** ** The variable round trip *)


(** ** Merge *)

Lemma own_props_ref (h : heap) (l : loc) (o : obj) :
  h !! l = Some o → own_props h (VRef l) = o.
Proof. intros H. simpl. by rewrite H. Qed.

(** C6, as amended.  On a message whose payload is an object, the Merge node
    copies the own properties of the variable (none when the variable is
    absent) onto the payload object, property by property and by reference,
    the variable's value winning where both have the property; nothing else
    in the heap changes, and the work of the node is this step followed by
    exactly one call of [next] on the same message. *)
Theorem combine_merges_into_object_payload
    (snd : sender) (c : cid) (ctx : value) (m : mid) (w : world)
    (this : esb_component) (msg : esb_message) (l : loc) (o : obj) :
  let stored := default VUndef (m_vars msg !! to_key (get_field this "variableName")) in
  comps w !! c = Some this →
  msgs w !! m = Some msg →
  m_payload msg = VRef l →
  objs w !! l = Some o →
  ∃ w1 o1,
    work snd FnCombine c ctx m w = next snd c None m w1 ∧
    msgs w1 = msgs w ∧ comps w1 = comps w ∧
    objs w1 !! l = Some o1 ∧
    (∀ k, o1 !! k = match own_props (objs w) stored !! k with
                    | Some x => Some x
                    | None => o !! k
                    end) ∧
    (∀ lv ov, stored = VRef lv → objs w !! lv = Some ov → o1 = ov ∪ o) ∧
    (m_vars msg !! to_key (get_field this "variableName") = None → o1 = o) ∧
    (∀ l', l' ≠ l → objs w1 !! l' = objs w !! l').
Proof.
  intros stored Hthis Hmsg Hp Hl.
  rewrite (work_Combine_eq snd c ctx m w this msg Hthis Hmsg l o Hp Hl).
  fold stored. simpl.
  assert (own_props (objs w) (if truthy stored then stored else VUndef)
          = own_props (objs w) stored) as ->.
  { destruct (truthy stored) eqn:Ht; [done|]. by rewrite (own_props_falsy _ stored). }
  eexists _, _. split; [done|]. simpl. rewrite lookup_insert_eq.
  split_and!; try done.
  - intros k. rewrite lookup_union.
    destruct (own_props (objs w) stored !! k), (o !! k); done.
  - intros lv ov -> Hov. by rewrite (own_props_ref _ _ _ Hov).
  - intros Hnone. subst stored. rewrite Hnone. simpl. by rewrite (left_id_L ∅ (∪)).
  - intros l' Hne. by rewrite lookup_insert_ne.
Qed.

(** ** Variables and the payload share no object *)





(** Allocating an object without properties. *)
Lemma allocate_empty_spec (h : heap) (nx : loc) :
  heap_closed h nx →
  heap_closed (<[nx := ∅]> h) (S nx) ∧
  val_ok (<[nx := ∅]> h) (VRef nx) ∧
  (∀ k, k < nx → (<[nx := ∅]> h) !! k = h !! k) ∧
  (∀ x, reachable (<[nx := ∅]> h) (VRef nx) x → nx ≤ x).
Proof.
  intros Hc. split_and!.
  - apply heap_closed_spec. intros l o Hl. destruct (decide (l = nx)) as [->|Hne].
    + rewrite lookup_insert_eq in Hl. simplify_eq. split; [lia|]. by intros k l'.
    + rewrite lookup_insert_ne in Hl by done.
      destruct (proj1 (heap_closed_spec h nx) Hc l o Hl) as [Hlt Hrefs].
      split; [lia|]. intros k l' Hk. destruct (decide (l' = nx)) as [->|Hne'].
      * rewrite lookup_insert_eq. eauto.
      * rewrite lookup_insert_ne by done. eauto.
  - apply val_ok_ref. rewrite lookup_insert_eq. eauto.
  - intros k Hk. rewrite lookup_insert_ne; [done|lia].
  - intros x (l & [= <-] & Hr).
    inversion Hr as [|? b ? (o & k & Ho & Hk) ?]; subst; [done|].
    rewrite lookup_insert_eq in Ho. by simplify_eq.
Qed.



(** ** Computations that leave the components alone *)

Lemma keeps_ret {A} (a : A) : keeps_comps (ret a).
Proof. done. Qed.

Lemma keeps_throw {A} (e : error) : keeps_comps (@throw A e).
Proof. done. Qed.

Lemma keeps_bind {A B} (x : M A) (k : A → M B) :
  keeps_comps x → (∀ a, keeps_comps (k a)) → keeps_comps (bind x k).
Proof.
  intros Hx Hk w. unfold bind. specialize (Hx w).
  destruct (x w) as [[a|e| |] w']; simpl in *; [|done..].
  by rewrite Hk.
Qed.

Lemma keeps_try_catch (body : M unit) (handler : error → M unit) :
  keeps_comps body → (∀ e, keeps_comps (handler e)) →
  keeps_comps (try_catch body handler).
Proof.
  intros Hb Hh w. unfold try_catch. specialize (Hb w).
  destruct (body w) as [[a|e| |] w']; simpl in *; [done| |done..].
  by rewrite Hh.
Qed.

Lemma keeps_forEach {A} (xs : list A) (body : A → M unit) :
  (∀ x, keeps_comps (body x)) → keeps_comps (forEach xs body).
Proof.
  intros Hb. induction xs as [|x xs IH]; simpl; [apply keeps_ret|].
  apply keeps_bind; [apply Hb | done].
Qed.

Lemma keeps_emit (e : event) : keeps_comps (emit e).
Proof. done. Qed.

Lemma keeps_get_msg (m : mid) : keeps_comps (get_msg m).
Proof. intros w. unfold get_msg. by destruct (msgs w !! m). Qed.

Lemma keeps_get_comp (c : cid) : keeps_comps (get_comp c).
Proof. intros w. unfold get_comp. by destruct (comps w !! c). Qed.

Lemma keeps_put_msg (m : mid) (x : esb_message) : keeps_comps (put_msg m x).
Proof. done. Qed.

Lemma keeps_set_payload (m : mid) (v : value) : keeps_comps (set_payload m v).
Proof. apply keeps_bind; [apply keeps_get_msg | intros; apply keeps_put_msg]. Qed.

Lemma keeps_unsupported {A} : keeps_comps (@unsupported A).
Proof. done. Qed.

Lemma keeps_set_var (m : mid) (k : string) (v : value) : keeps_comps (set_var m k v).
Proof.
  apply keeps_bind; [apply keeps_get_msg|]. intros x.
  destruct (_ && _); [by destruct v | apply keeps_put_msg].
Qed.

Lemma keeps_allocate (o : obj) : keeps_comps (allocate o).
Proof. done. Qed.

Lemma keeps_js_clone (v : value) : keeps_comps (js_clone v).
Proof.
  intros w. unfold js_clone. by destruct (clone (objs w) (fresh w) v) as [[??]?].
Qed.

Lemma keeps_Object_assign (target source : value) :
  keeps_comps (Object_assign target source).
Proof.
  intros w. destruct target; simpl; try done.
  - by case_bool_decide.
  - unfold modify. simpl. by destruct (objs w !! l).
  - by case_bool_decide.
Qed.

Lemma keeps_call_callback (c : cid) (args : cb_args) : keeps_comps (call_callback c args).
Proof.
  apply keeps_bind; [apply keeps_get_comp|]. intros this.
  destruct (c_callback this) as [cb|]; [|apply keeps_throw].
  apply keeps_bind; [apply keeps_emit|]. intros _.
  destruct (cb_raises cb args); [apply keeps_throw | apply keeps_ret].
Qed.

Create HintDb keeps.

#[local] Hint Resolve keeps_ret keeps_throw keeps_emit keeps_get_msg keeps_get_comp
  keeps_put_msg keeps_set_payload keeps_set_var keeps_js_clone keeps_Object_assign
  keeps_call_callback keeps_unsupported keeps_allocate : keeps.

Lemma keeps_modify (f : world → world) :
  (∀ w, comps (f w) = comps w) → keeps_comps (modify f).
Proof. intros Hf w. apply Hf. Qed.

Ltac keeps :=
  repeat first
    [ progress eauto with keeps
    | apply keeps_modify; done
    | apply keeps_bind; [|intros ?]
    | apply keeps_try_catch; [|intros ?]
    | apply keeps_forEach; intros ? ].

Lemma keeps_next (snd : sender) (c : cid) (name : option string) (m : mid) :
  (∀ c' m', keeps_comps (snd c' m')) → keeps_comps (next snd c name m).
Proof.
  intros Hsnd. unfold next. apply keeps_bind; [apply keeps_get_comp|]. intros this.
  destruct (c_channels this !! default "default" name);
    [|destruct (inherited _); [apply keeps_throw | apply keeps_ret]].
  unfold debugMessage. keeps.
Qed.

Lemma keeps_mapper (om : object_mapper) (source map : value) :
  keeps_comps (λ w, let '(r, h, nx) := om (objs w) (fresh w) source map in
                    (r, set_heap h nx w)).
Proof. intros w. by destruct (om _ _ _ _) as [[??]?]. Qed.

Lemma keeps_work (snd : sender) (fn : workfn) (c : cid) (ctx : value) (m : mid) :
  (∀ c' m', keeps_comps (snd c' m')) → keeps_comps (work snd fn c ctx m).
Proof.
  intros Hsnd. pose proof (keeps_next snd) as Hnext.
  destruct fn as [|om| | | | |pathArguments|]; unfold work, debugMessage, debugCall; keeps.
  - apply keeps_mapper.
  - destruct (get_property _ _) as [stored|]; [destruct (truthy stored)|]; keeps.
  - destruct (get_field _ "method"); keeps.
    destruct (String.eqb _ _); keeps.
Qed.

Lemma keeps_base_send (snd : sender) (c : cid) (m : mid) :
  (∀ c' m', keeps_comps (snd c' m')) → keeps_comps (base_send snd c m).
Proof.
  intros Hsnd. pose proof (keeps_work snd) as Hwork.
  unfold base_send, invoke_fn, debugComponent. keeps.
Qed.

Lemma send_S (fuel : nat) (c : cid) (m : mid) :
  send (S fuel) c m =
  (let* this := get_comp c in
   match c_fn this with
   | FnLogger => emit (ConsoleLog c m) >> base_send (send fuel) c m
   | _ => base_send (send fuel) c m
   end).
Proof. reflexivity. Qed.

Lemma keeps_send (fuel : nat) (c : cid) (m : mid) : keeps_comps (send fuel c m).
Proof.
  revert c m. induction fuel as [|fuel IH]; intros c m; [done|].
  pose proof (keeps_base_send (send fuel)) as Hbase.
  rewrite send_S. apply keeps_bind; [apply keeps_get_comp|]. intros this.
  destruct (c_fn this); keeps.
Qed.

(** ** Failure capture in [send] *)

Lemma send_unfold (fuel : nat) (c : cid) (m : mid) (w : world)
    (this : esb_component) (msg : esb_message) :
  comps w !! c = Some this → msgs w !! m = Some msg →
  send (S fuel) c m w =
  try_catch (invoke_fn (send fuel) c m)
    (λ error, call_callback c (CbFailure {| ei_component := c; ei_message := m;
                                            ei_cause := error |}))
    (set_trace (trace w ++ send_entry (c_fn this) c m msg) w).
Proof.
  intros Hthis Hmsg. rewrite send_S. unfold bind at 1. unfold get_comp at 1. rewrite Hthis.
  unfold send_entry.
  destruct (c_fn this); simpl;
    cbv [base_send bind get_msg emit modify debugComponent]; simpl; rewrite Hmsg;
    unfold set_trace; simpl; rewrite <- ?app_assoc; reflexivity.
Qed.

(** C1, as amended.  When the work function of a node raises during [send]
    and the node has a failure sink that does not itself raise on the
    failure record, the error is caught at the node: [send] returns normally
    to its caller, and after the point of failure exactly one thing happens,
    the delivery of the record [{component, message, cause}] to the sink; in
    particular nothing is forwarded by [next] after the failure. *)
Theorem send_reports_work_failure_once
    (fuel : nat) (c : cid) (m : mid) (w w' : world)
    (this : esb_component) (msg : esb_message) (cb : callback) (e : error) :
  let entered := set_trace (trace w ++ send_entry (c_fn this) c m msg) w in
  let record := CbFailure {| ei_component := c; ei_message := m; ei_cause := e |} in
  comps w !! c = Some this →
  msgs w !! m = Some msg →
  work (send fuel) (c_fn this) c (get_field this "context") m entered = (Throw e, w') →
  c_callback this = Some cb →
  cb_raises cb record = None →
  send (S fuel) c m w = (Ok tt, set_trace (trace w' ++ [Called (cb_name cb) record]) w').
Proof.
  intros entered record Hthis Hmsg Hwork Hcb Hquiet.
  rewrite (send_unfold fuel c m w this msg Hthis Hmsg). fold entered.
  assert (comps w' = comps w) as Hcomps.
  { pose proof (keeps_work (send fuel) (c_fn this) c (get_field this "context") m
                  (keeps_send fuel) entered) as Hk.
    by rewrite Hwork in Hk. }
  unfold try_catch, invoke_fn, bind. unfold get_comp at 1. simpl. rewrite Hthis.
  rewrite Hwork. unfold call_callback, bind, get_comp. rewrite Hcomps, Hthis, Hcb.
  unfold emit, modify. fold record. by rewrite Hquiet.
Qed.

(** ** Wiring and fan-out *)

Lemma connect_eq (w : world) (c : cid) (this : esb_component) (name : option string)
    (t : cid) :
  comps w !! c = Some this →
  inherited (default "default" name) = false →
  connect c name t w =
  (Ok tt,
   set_trace (trace w ++ [DbgConnected c t (default "default" name)])
     (set_comps
        (<[c := with_channels
                  (<[default "default" name :=
                       default [] (c_channels this !! default "default" name) ++ [t]]>
                     (c_channels this)) this]> (comps w))
        (next_cid w) w)).
Proof.
  intros Hthis Hname. cbv [connect bind get_comp modify debugComponent emit].
  rewrite Hthis, Hname. by rewrite andb_false_r.
Qed.

Lemma next_eq (snd : sender) (w : world) (c : cid) (this : esb_component)
    (name : option string) (m : mid) :
  comps w !! c = Some this →
  next snd c name m w =
  match c_channels this !! default "default" name with
  | Some targets =>
      forEach targets
        (λ t, debugMessage (DbgPassing c m t (default "default" name)) >> snd t m) w
  | None =>
      if inherited (default "default" name)
      then (Throw (TypeError "this.channels[name].forEach is not a function"), w)
      else (Ok tt, w)
  end.
Proof.
  intros Hthis. unfold next, bind at 1, get_comp. rewrite Hthis.
  destruct (c_channels this !! default "default" name); [done|].
  by destruct (inherited _).
Qed.

Lemma connect_all_then_next (snd : sender) (ts : list cid) (w : world) (c : cid)
    (this : esb_component) (name : option string) (m : mid) :
  comps w !! c = Some this →
  inherited (default "default" name) = false →
  ∃ w', forEach ts (connect c name) w = (Ok tt, w') ∧
        next snd c name m w' =
        forEach (default [] (c_channels this !! default "default" name) ++ ts)
          (λ t, debugMessage (DbgPassing c m t (default "default" name)) >> snd t m) w'.
Proof.
  intros Hthis Hname. revert w this Hthis.
  induction ts as [|t ts IH]; intros w this Hthis.
  - exists w. split; [done|]. rewrite (next_eq snd w c this name m Hthis).
    rewrite app_nil_r, Hname. by destruct (c_channels this !! default "default" name).
  - simpl. unfold bind at 1. rewrite (connect_eq w c this name t Hthis Hname).
    edestruct (IH (set_trace (trace w ++ [DbgConnected c t (default "default" name)])
                     (set_comps
                        (<[c := with_channels
                                  (<[default "default" name :=
                                       default [] (c_channels this !! default "default" name)
                                       ++ [t]]> (c_channels this)) this]> (comps w))
                        (next_cid w) w))) as (w' & Hrun & Hnext).
    { simpl. apply lookup_insert_eq. }
    exists w'. split; [done|]. rewrite Hnext. simpl. rewrite lookup_insert_eq. simpl.
    by rewrite <- app_assoc.
Qed.

(** X21.  [connect] and [next] called without a channel name use
    the channel ["default"].  Under a channel name that is not one that
    every object inherits from [Object.prototype], as ["default"] is not:
    [connect] appends the target to the list of the channel, starting from
    the empty list when the channel has none, whether or not the target is
    already there, and changes no other channel and no other component;
    after any sequence of connects, [next] is the in-order sequence of
    [target.send(message)] over the targets registered so far, each with the
    same message, a target registered twice being sent to twice; and on a
    channel without a list [next] does nothing. *)
Theorem connect_appends_and_next_fans_out :
  (∀ c t, connect c None t = connect c (Some "default") t) ∧
  (∀ snd c m, next snd c None m = next snd c (Some "default") m) ∧
  inherited "default" = false ∧
  (∀ w c this name t,
     comps w !! c = Some this →
     inherited (default "default" name) = false →
     ∃ w' this',
       connect c name t w = (Ok tt, w') ∧
       comps w' !! c = Some this' ∧
       c_channels this' !! default "default" name =
         Some (default [] (c_channels this !! default "default" name) ++ [t]) ∧
       (∀ ch, ch ≠ default "default" name →
              c_channels this' !! ch = c_channels this !! ch) ∧
       (∀ c', c' ≠ c → comps w' !! c' = comps w !! c') ∧
       msgs w' = msgs w ∧ objs w' = objs w) ∧
  (∀ snd ts w c this name m,
     comps w !! c = Some this →
     inherited (default "default" name) = false →
     ∃ w', forEach ts (connect c name) w = (Ok tt, w') ∧
           next snd c name m w' =
           forEach (default [] (c_channels this !! default "default" name) ++ ts)
             (λ t, debugMessage (DbgPassing c m t (default "default" name)) >>
                   snd t m) w') ∧
  (∀ snd w c this name m,
     comps w !! c = Some this →
     inherited (default "default" name) = false →
     c_channels this !! default "default" name = None ∨
     c_channels this !! default "default" name = Some [] →
     next snd c name m w = (Ok tt, w)).
Proof.
  split_and!.
  - done.
  - done.
  - done.
  - intros w c this name t Hthis Hname.
    rewrite (connect_eq w c this name t Hthis Hname).
    eexists _, _. split; [done|]. simpl. rewrite lookup_insert_eq.
    split; [done|]. simpl. rewrite lookup_insert_eq. split_and!; try done.
    + intros ch Hne. by rewrite lookup_insert_ne.
    + intros c' Hne. by rewrite lookup_insert_ne.
  - intros snd ts w c this name m Hthis Hname. by apply connect_all_then_next.
  - intros snd w c this name m Hthis Hname Hch.
    rewrite (next_eq snd w c this name m Hthis), Hname.
    by destruct Hch as [-> | ->].
Qed.

(** ** Deferred dispatch *)

(** C8.  [post] returns at once: it only records its trace point and queues
    the send as an immediate, so that the heap, the messages, the components,
    the timers and the requests are as they were and nothing of the work
    has happened.  The queued send is exactly [send] on the same node and
    message: it runs when a later turn of the execution loop takes it from
    the head of the queue. *)
Theorem post_defers_send (c : cid) (m : mid) (w : world) (msg : esb_message) :
  msgs w !! m = Some msg →
  ∃ w',
    post c m w = (Ok tt, w') ∧
    objs w' = objs w ∧ msgs w' = msgs w ∧ comps w' = comps w ∧
    timers w' = timers w ∧ requests w' = requests w ∧
    trace w' = trace w ++ [DbgPosted c (correlationId (m_context msg))] ∧
    immediates w' = immediates w ++ [(c, m)] ∧
    (∀ fuel, immediates w = [] →
       run_immediate fuel w' = send fuel c m (set_immediates [] w')) ∧
    (∀ fuel w0 rest, immediates w0 = (c, m) :: rest →
       run_immediate fuel w0 = send fuel c m (set_immediates rest w0)).
Proof.
  intros Hmsg. eexists. split.
  { cbv [post bind get_msg debugComponent emit modify]. rewrite Hmsg. reflexivity. }
  simpl. split_and!; try done.
  - intros fuel Hq. unfold run_immediate. simpl. by rewrite Hq.
  - intros fuel w0 rest Hq. unfold run_immediate. by rewrite Hq.
Qed.

(** ** No component has a [context] property *)

Lemma keeps_createMessage (p u s ci : value) : keeps_comps (createMessage p u s ci).
Proof. intros w. by rewrite createMessage_eq. Qed.

Lemma keeps_post (c : cid) (m : mid) : keeps_comps (post c m).
Proof. unfold post, debugComponent. keeps. Qed.

Lemma keeps_run_immediate (fuel : nat) : keeps_comps (run_immediate fuel).
Proof.
  intros w. unfold run_immediate. destruct (immediates w) as [|[c m] rest]; [done|].
  by rewrite keeps_send.
Qed.

Lemma keeps_timer_fired (fuel : nat) (c : cid) (m : mid) :
  keeps_comps (timer_fired fuel c m).
Proof. apply keeps_next, keeps_send. Qed.

Lemma keeps_call_responded (fuel : nat) (c : cid) (m : mid) (body : value) :
  keeps_comps (call_responded fuel c m body).
Proof.
  pose proof (keeps_next (send fuel) c None m (keeps_send fuel)).
  unfold call_responded, debugComponent. keeps.
Qed.

Lemma keeps_new_object (o : obj) : keeps_comps (new_object o).
Proof. done. Qed.

Lemma keeps_assign_field (target : value) (k : string) (v : value) :
  keeps_comps (assign_field target k v).
Proof.
  intros w. destruct target; simpl; try done. by destruct (objs w !! l).
Qed.

Lemma ESBComponent_no_context (flds : gmap string value) (fn : workfn)
    (cb : option callback) (w : world) :
  flds !! "context" = None → no_context w →
  no_context (ESBComponent flds fn cb w).2.
Proof.
  intros Hflds Hw c this. unfold ESBComponent, bind, uuid_v4. simpl.
  intros Hc. simpl in Hc. destruct (decide (c = next_cid w)) as [->|Hne].
  - rewrite lookup_insert_eq in Hc. by simplify_eq.
  - rewrite lookup_insert_ne in Hc by done. by eapply Hw.
Qed.

Lemma no_context_keeps {A} (x : M A) (w : world) :
  keeps_comps x → no_context w → no_context (x w).2.
Proof. intros Hk Hw c this. rewrite Hk. apply Hw. Qed.

Lemma no_context_discard {A} (x : M A) (w : world) :
  no_context (x w).2 → no_context ((x >> ret tt) w).2.
Proof. unfold bind. by destruct (x w) as [[a|e| |] w']. Qed.

Lemma connect_no_context (c : cid) (name : option string) (t : cid) (w : world) :
  no_context w → no_context (connect c name t w).2.
Proof.
  intros Hw. destruct (comps w !! c) as [this|] eqn:Hthis.
  - destruct (inherited (default "default" name)) eqn:Hname.
    + cbv [connect bind get_comp]. rewrite Hthis, Hname.
      destruct (bool_decide _); [done|]. simpl. intros c' this'.
      intros Hc'. simpl in Hc'. destruct (decide (c' = c)) as [->|Hne].
      * rewrite lookup_insert_eq in Hc'. simplify_eq. simpl. by eapply Hw.
      * rewrite lookup_insert_ne in Hc' by done. by eapply Hw.
    + rewrite (connect_eq w c this name t Hthis Hname). simpl. intros c' this'.
      intros Hc'. simpl in Hc'. destruct (decide (c' = c)) as [->|Hne].
      * rewrite lookup_insert_eq in Hc'. simplify_eq. simpl. by eapply Hw.
      * rewrite lookup_insert_ne in Hc' by done. by eapply Hw.
  - cbv [connect bind get_comp]. by rewrite Hthis.
Qed.

Lemma run_call_no_context (a : api_call) (w : world) :
  no_context w → no_context (run_call a w).2.
Proof.
  intros Hw.
  destruct a as [p u s ci|cb|om map|ms|n op|n|cb host uri method path|cb
                |c ch t|fuel c m|c m|fuel|fuel c m|fuel c m body|c m err
                |o|target k v|m v]; unfold run_call.
  - apply no_context_discard, no_context_keeps; [apply keeps_createMessage | done].
  - apply no_context_discard, ESBComponent_no_context; done.
  - apply no_context_discard, ESBComponent_no_context; done.
  - apply no_context_discard, ESBComponent_no_context; done.
  - apply no_context_discard. unfold createVarComponent.
    destruct (String.eqb _ _); apply ESBComponent_no_context; done.
  - apply no_context_discard, ESBComponent_no_context; done.
  - apply no_context_discard, ESBComponent_no_context; done.
  - apply no_context_discard, ESBComponent_no_context; done.
  - by apply connect_no_context.
  - apply no_context_keeps; [apply keeps_send | done].
  - apply no_context_keeps; [apply keeps_post | done].
  - apply no_context_keeps; [apply keeps_run_immediate | done].
  - apply no_context_keeps; [apply keeps_timer_fired | done].
  - apply no_context_keeps; [apply keeps_call_responded | done].
  - apply no_context_keeps; [apply keeps_call_callback | done].
  - apply no_context_discard, no_context_keeps; [apply keeps_new_object | done].
  - apply no_context_keeps; [apply keeps_assign_field | done].
  - apply no_context_keeps; [apply keeps_set_payload | done].
Qed.

Lemma run_calls_no_context (calls : list api_call) (w : world) :
  no_context w → no_context (run_calls calls w).
Proof.
  revert w. induction calls as [|a calls IH]; intros w Hw; [done|].
  simpl. apply IH. by apply run_call_no_context.
Qed.

(** C9.  In every world built from the empty one by calls of the library
    (factories, [connect], [send], [post], turns of the loop, client code
    on payloads), no component has a [context] property: what [send]
    evaluates for [this.context] is [undefined], and the work function is
    invoked with [undefined] as its first argument. *)
Theorem send_passes_undefined_context
    (calls : list api_call) (c : cid) (this : esb_component) :
  let w := run_calls calls empty_world in
  comps w !! c = Some this →
  c_fields this !! "context" = None ∧
  get_field this "context" = VUndef ∧
  ∀ snd m, invoke_fn snd c m w = work snd (c_fn this) c VUndef m w.
Proof.
  intros w Hthis.
  assert (c_fields this !! "context" = None) as Hnone.
  { eapply (run_calls_no_context calls empty_world); [|done]. by intros c' this'. }
  assert (get_field this "context" = VUndef) as Hundef.
  { unfold get_field. by rewrite Hnone. }
  split_and!; try done.
  intros snd m. unfold invoke_fn, bind, get_comp. by rewrite Hthis, Hundef.
Qed.

(** ** The variable component factory *)

Lemma special_Some (p : string) (e : casing) :
  special p = Some e → In e special_casing ∧ cs_char e = p.
Proof.
  unfold special. intros H. apply find_some in H as [H1 H2].
  split; [done|]. by apply String.eqb_eq.
Qed.

(** The first character of a re-cased string comes from one byte or from
    one character of [special_casing]. *)
Lemma recase_head (out : casing → string) (f : ascii → ascii) (s : string)
    (x : ascii) (t : string) :
  recase out f s = String x t →
  (∃ a r, s = String a r ∧ f a = x ∧ recase out f r = t) ∨
  (∃ e r, In e special_casing ∧ s = (cs_char e ++ r)%string ∧
          (out e ++ recase out f r)%string = String x t).
Proof.
  destruct s as [|a [|b s2]]; [done| |].
  - intros [= <- <-]. left. by exists a, "".
  - cbn [recase].
    destruct (special (String a (String b ""))) as [e|] eqn:He.
    { apply special_Some in He as [Hin Hc]. intros H. right. exists e, s2.
      split; [done|]. split; [|done]. by rewrite Hc. }
    destruct s2 as [|c s3].
    { intros [= <- <-]. left. by exists a, (String b ""). }
    destruct (special (String a (String b (String c "")))) as [e|] eqn:He3.
    { apply special_Some in He3 as [Hin Hc]. intros H. right. exists e, s3.
      split; [done|]. split; [|done]. by rewrite Hc. }
    intros [= <- <-]. left. by exists a, (String b (String c s3)).
Qed.

Lemma recase_nil (out : casing → string) (f : ascii → ascii) (s : string) :
  (∀ e, In e special_casing → out e ≠ "") →
  recase out f s = "" → s = "".
Proof.
  intros Hout. destruct s as [|a [|b s2]]; [done|done|].
  cbn [recase].
  destruct (special (String a (String b ""))) as [e|] eqn:He.
  { apply special_Some in He as [Hin _]. specialize (Hout e Hin).
    destruct (out e); done. }
  destruct s2 as [|c s3]; [done|].
  destruct (special (String a (String b (String c "")))) as [e|] eqn:He3; [|done].
  apply special_Some in He3 as [Hin _]. specialize (Hout e Hin).
  destruct (out e); done.
Qed.

Lemma upper_nonempty (e : casing) : In e special_casing → cs_upper e ≠ "".
Proof. simpl. intros H. repeat destruct H as [<-|H]; done. Qed.

Lemma fold_nonempty (e : casing) : In e special_casing → cs_fold e ≠ "".
Proof. simpl. intros H. repeat destruct H as [<-|H]; done. Qed.

Lemma ascii_upper_inv (a x : ascii) :
  ascii_upper a = x → 65 ≤ nat_of_ascii x ≤ 90 →
  a = x ∨ a = ascii_lower x.
Proof.
  intros <-. destruct a as [[] [] [] [] [] [] [] []]; vm_compute; intros [H1 H2];
    first [by left | by right | exfalso; lia ].
Qed.

Lemma ascii_lower_inv (a x : ascii) :
  ascii_lower a = x → 97 ≤ nat_of_ascii x ≤ 122 →
  a = x ∨ a = ascii_upper x.
Proof.
  intros <-. destruct a as [[] [] [] [] [] [] [] []]; vm_compute; intros [H1 H2];
    first [by left | by right | exfalso; lia ].
Qed.

(** One step of reading a re-cased word of ASCII letters from its first
    letter. *)
Ltac recase_step :=
  match goal with
  | H : recase _ _ _ = String _ _ |- _ =>
      let Hin := fresh "Hin" in
      apply recase_head in H as [(? & ? & -> & H & ?) | (? & ? & Hin & -> & H)];
      [ first [ apply ascii_upper_inv in H as [-> | ->]; [| |vm_compute; lia]
              | apply ascii_lower_inv in H as [-> | ->]; [| |vm_compute; lia] ]
      | simpl in Hin; repeat destruct Hin as [<-|Hin]; try done;
        cbv [String.append cs_upper cs_fold] in H; try discriminate H;
        injection H as H ]
  end.

Lemma toUpperCase_SET (s : string) :
  toUpperCase s = "SET" ↔ s ∈ SET_spellings.
Proof.
  split.
  - unfold toUpperCase. intros H.
    recase_step.
    all: recase_step.
    all: recase_step.
    all: match goal with
         | H : recase _ _ _ = "" |- _ =>
             apply recase_nil in H; [|apply upper_nonempty]; subst
         end.
    all: apply list_elem_of_In; vm_compute; tauto.
  - intros H. apply list_elem_of_In in H. vm_compute in H.
    repeat destruct H as [<-|H]; done.
Qed.

Lemma eq_ignoring_case_SET (s : string) :
  eq_ignoring_case s "SET" ↔ s ∈ SET_spellings.
Proof.
  unfold eq_ignoring_case. change (case_fold "SET") with "set". split.
  - unfold case_fold. intros H.
    recase_step.
    all: recase_step.
    all: recase_step.
    all: match goal with
         | H : recase _ _ _ = "" |- _ =>
             apply recase_nil in H; [|apply fold_nonempty]; subst
         end.
    all: apply list_elem_of_In; vm_compute; tauto.
  - intros H. apply list_elem_of_In in H. vm_compute in H.
    repeat destruct H as [<-|H]; done.
Qed.

(** C10.  For every variable name and every operation string,
    [createVarComponent] returns normally, and the component it creates is a
    Variable-set component exactly when the operation equals ["SET"] up to
    the case of its letters; for every other string it is a Variable-get
    component.  The strings equal to ["SET"] up to case are the eight
    spellings in ASCII letters and the four that start with the long s
    (U+017F), whose upper case is [S]. *)
Theorem createVarComponent_set_iff_SET
    (variableName : value) (operation : string) (w : world) :
  ∃ this,
    createVarComponent variableName operation w =
      (Ok (next_cid w),
       set_comps (<[next_cid w := this]> (comps w)) (S (next_cid w))
                 (set_uuids (S (uuids w)) w)) ∧
    get_field this "variableName" = variableName ∧
    (c_fn this = FnVarSet ↔ eq_ignoring_case operation "SET") ∧
    (c_fn this = FnVarGet ↔ ¬ eq_ignoring_case operation "SET") ∧
    (eq_ignoring_case operation "SET" ↔ operation ∈ SET_spellings).
Proof.
  unfold createVarComponent.
  pose proof (eq_ignoring_case_SET operation) as Hfold.
  destruct (String.eqb (toUpperCase operation) "SET") eqn:Hop.
  - apply String.eqb_eq in Hop. apply toUpperCase_SET, Hfold in Hop.
    eexists. split; [reflexivity|]. simpl. split; [done|]. by split_and!.
  - apply String.eqb_neq in Hop. rewrite toUpperCase_SET, <- Hfold in Hop.
    eexists. split; [reflexivity|]. simpl. split; [done|]. by split_and!.
Qed.

(** ** The scenarios of the specification, run on the model *)

(** Constructing with [{a: 1}] and then setting [payload.a = 2] leaves
    [originalPayload.a] equal to [1]. *)
Example original_payload_scenario_result :
  result_of original_payload_scenario empty_world = Ok (VNum 2, VNum 1).
Proof. vm_compute. reflexivity. Qed.

(** set("snap") on [{x: 1}], then [payload.x = 2]: [vars.snap.x] is still
    [1]; after get("snap"), [payload.x] is [1] and the payload is not the
    snapshot object. *)
Example round_trip_scenario_result :
  result_of round_trip_scenario empty_world = Ok (VNum 1, VNum 1, false).
Proof. vm_compute. reflexivity. Qed.

(** With [vars.v = {x: 1}] and [payload = {x: 2, y: 3}], Merge makes the
    payload [{x: 1, y: 3}] and forwards the message once. *)
Example merge_scenario_result :
  result_of merge_scenario empty_world =
  Ok (VNum 1, VNum 3, [Called 7 (CbResult 0)]).
Proof. vm_compute. reflexivity. Qed.

(** Two recording sinks under the default channel, the first connected
    twice: [next] reaches them in registration order, the first twice. *)
Example fanout_scenario_result :
  result_of fanout_scenario empty_world =
  Ok [Called 1 (CbResult 0); Called 2 (CbResult 0); Called 1 (CbResult 0)].
Proof. vm_compute. reflexivity. Qed.

(** The sink has not run when [post] returns; it has after the next turn of
    the loop. *)
Example post_scenario_result :
  result_of post_scenario empty_world = Ok ([], [Called 1 (CbResult 0)]).
Proof. vm_compute. reflexivity. Qed.

(** The error escaping the Merge node, which has no failure sink, is caught
    by the Logger in front of it and delivered once to the Logger's sink. *)
Example sink_scenario_result :
  result_of sink_scenario empty_world =
  Ok [Called 9 (CbFailure {| ei_component := 0; ei_message := 0;
                             ei_cause := TypeError "this.callback is not a function" |})].
Proof. vm_compute. reflexivity. Qed.

(** ** Instances and counterexamples *)






(** Merge on a payload that is not an object: on the number [5] the message
    is forwarded with the payload still [5], nothing of [vars.v = {x: 1}]
    merged; on [null] the work raises, the error escapes [send] and the
    message is never forwarded. *)
Lemma merge_on_primitive_payload :
  result_of (merge_primitive_scenario (VNum 5)) empty_world =
    Ok (VNum 5, [Called 7 (CbResult 0)]) ∧
  result_of (merge_primitive_scenario VNull) empty_world =
    Throw (TypeError "this.callback is not a function") ∧
  calls_in (trace (world_after (merge_primitive_scenario VNull) empty_world)) = [].
Proof. split_and!; vm_compute; reflexivity. Qed.

Lemma combine_merges_into_object_payload_witness :
  ∃ this msg,
    comps merge_world !! 1 = Some this ∧
    msgs merge_world !! 0 = Some msg ∧
    m_payload msg = VRef 4 ∧
    objs merge_world !! 4 = Some {["x" := VNum 2; "y" := VNum 3]} ∧
    m_vars msg !! "v" = Some (VRef 2) ∧
    objs merge_world !! 2 = Some {["x" := VNum 1]} ∧
    ∃ w1,
      work (send 1) FnCombine 1 VUndef 0 merge_world = next (send 1) 1 None 0 w1 ∧
      msgs w1 = msgs merge_world ∧
      objs w1 !! 4 = Some {["x" := VNum 1; "y" := VNum 3]}.
Proof.
  assert (∃ this, comps merge_world !! 1 = Some this ∧
                  to_key (get_field this "variableName") = "v")
    as (this & Hthis & Hkey) by (eexists; split; [vm_compute; reflexivity|vm_compute; reflexivity]).
  assert (∃ msg, msgs merge_world !! 0 = Some msg ∧ m_payload msg = VRef 4 ∧
                 m_vars msg !! "v" = Some (VRef 2))
    as (msg & Hmsg & Hp & Hvar) by (eexists; split_and!; vm_compute; reflexivity).
  assert (objs merge_world !! 4 = Some {["x" := VNum 2; "y" := VNum 3]}) as Ho
    by (vm_compute; reflexivity).
  assert (objs merge_world !! 2 = Some {["x" := VNum 1]}) as Hov
    by (vm_compute; reflexivity).
  exists this, msg.
  split; [exact Hthis|]. split; [exact Hmsg|]. split; [exact Hp|].
  split; [exact Ho|]. split; [exact Hvar|]. split; [exact Hov|].
  destruct (combine_merges_into_object_payload (send 1) 1 VUndef 0 merge_world
              this msg 4 _ Hthis Hmsg Hp Ho)
    as (w1 & o1 & H1 & H2 & _ & H4 & _ & H6 & _).
  rewrite Hkey, Hvar in H6. specialize (H6 2 _ eq_refl Hov).
  exists w1. split; [exact H1|]. split; [exact H2|].
  rewrite H6 in H4. etransitivity; [exact H4|]. vm_compute. reflexivity.
Defined.



(** A Merge component is built without a failure sink: on a message whose
    payload is [null] its work raises, and [send] raises to its caller
    instead of delivering a failure record; no callback is invoked. *)
Lemma send_without_sink_raises :
  result_of no_sink_scenario empty_world =
    Throw (TypeError "this.callback is not a function") ∧
  trace (world_after no_sink_scenario empty_world) = [DbgStarted 0 0] ∧
  calls_in (trace (world_after no_sink_scenario empty_world)) = [].
Proof. split_and!; vm_compute; reflexivity. Qed.

Lemma send_reports_work_failure_once_witness :
  ∃ this msg w',
    comps sink_world !! 0 = Some this ∧
    msgs sink_world !! 0 = Some msg ∧
    work (send 2) (c_fn this) 0 (get_field this "context") 0
      (set_trace (trace sink_world ++ send_entry (c_fn this) 0 0 msg) sink_world)
      = (Throw (TypeError "this.callback is not a function"), w') ∧
    c_callback this = Some (recorder 9) ∧
    send 3 0 0 sink_world =
      (Ok tt,
       set_trace
         (trace w' ++
          [Called 9 (CbFailure {| ei_component := 0; ei_message := 0;
                                  ei_cause := TypeError "this.callback is not a function" |})])
         w').
Proof.
  assert (∃ this, comps sink_world !! 0 = Some this ∧ c_fn this = FnLogger ∧
                  get_field this "context" = VUndef ∧
                  c_callback this = Some (recorder 9))
    as (this & Hthis & Hfn & Hctx & Hcb) by (eexists; split_and!; vm_compute; reflexivity).
  assert (∃ msg, msgs sink_world !! 0 = Some msg ∧ correlationId (m_context msg) = 0)
    as (msg & Hmsg & Hcorr) by (eexists; split; [vm_compute; reflexivity|vm_compute; reflexivity]).
  assert (∃ w', work (send 2) (c_fn this) 0 (get_field this "context") 0
                  (set_trace (trace sink_world ++ send_entry (c_fn this) 0 0 msg)
                     sink_world)
                = (Throw (TypeError "this.callback is not a function"), w'))
    as (w' & Hwork).
  { unfold send_entry. rewrite Hfn, Hctx, Hcorr. eexists. vm_compute. reflexivity. }
  exists this, msg, w'.
  split; [exact Hthis|]. split; [exact Hmsg|]. split; [exact Hwork|].
  split; [exact Hcb|].
  exact (send_reports_work_failure_once 2 0 0 sink_world w' this msg (recorder 9)
           (TypeError "this.callback is not a function")
           Hthis Hmsg Hwork Hcb eq_refl).
Defined.

(** C3, at the failing input.  The channel table is a plain object, and
    [connect] and [next] test [this.channels[name]] without asking whether
    the name is the table's own.  Under the channel name [toString], which
    every object inherits from [Object.prototype], [connect] finds a
    function where it expects no list or a list: it creates no list, raises
    and registers nothing.  Under [constructor], on which nothing was
    connected, [next] raises instead of doing nothing. *)
Lemma connect_raises_on_inherited_name :
  connect 0 (Some "toString") 1 fanout_world =
    (Throw (TypeError "this.channels[channel].push is not a function"), fanout_world) ∧
  next (send 1) 0 (Some "constructor") 0 fanout_world =
    (Throw (TypeError "this.channels[name].forEach is not a function"), fanout_world).
Proof. split; vm_compute; reflexivity. Qed.

Lemma connect_appends_and_next_fans_out_witness :
  ∃ this,
    comps fanout_world !! 0 = Some this ∧
    ∃ w',
      forEach [1; 2; 1] (connect 0 None) fanout_world = (Ok tt, w') ∧
      next (send 2) 0 None 0 w' =
      forEach [1; 2; 1]
        (λ t, debugMessage (DbgPassing 0 0 t "default") >> send 2 t 0) w'.
Proof.
  assert (∃ this, comps fanout_world !! 0 = Some this ∧
                  c_channels this !! "default" = None)
    as (this & Hthis & Hch) by (eexists; split; [vm_compute; reflexivity|vm_compute; reflexivity]).
  exists this. split; [exact Hthis|].
  destruct connect_appends_and_next_fans_out as (_ & _ & _ & _ & Hfan & _).
  destruct (Hfan (send 2) [1; 2; 1] fanout_world 0 this None 0 Hthis eq_refl)
    as (w' & Hrun & Hnext).
  simpl in Hnext. rewrite Hch in Hnext.
  exists w'. split; [exact Hrun|]. exact Hnext.
Defined.

Lemma post_defers_send_witness :
  ∃ msg,
    msgs fanout_world !! 0 = Some msg ∧
    ∃ w',
      post 1 0 fanout_world = (Ok tt, w') ∧
      objs w' = objs fanout_world ∧ msgs w' = msgs fanout_world ∧
      calls_in (trace w') = [] ∧
      immediates w' = [(1, 0)] ∧
      run_immediate 3 w' = send 3 1 0 (set_immediates [] w').
Proof.
  assert (∃ msg, msgs fanout_world !! 0 = Some msg)
    as (msg & Hmsg) by (eexists; vm_compute; reflexivity).
  exists msg. split; [exact Hmsg|].
  destruct (post_defers_send 1 0 fanout_world msg Hmsg)
    as (w' & H1 & H2 & H3 & _ & _ & _ & H6 & H7 & H8 & _).
  exists w'. split; [exact H1|]. split; [exact H2|]. split; [exact H3|].
  split; [rewrite H6; vm_compute; reflexivity|].
  split; [exact H7|]. apply H8. reflexivity.
Defined.

Lemma send_passes_undefined_context_witness :
  ∃ this,
    comps (run_calls [CreateLoggerComponent None;
                      CreateVarComponent (VStr "n") "SET";
                      Connect 0 None 1] empty_world) !! 1 = Some this ∧
    get_field this "context" = VUndef.
Proof.
  assert (∃ this,
            comps (run_calls [CreateLoggerComponent None;
                              CreateVarComponent (VStr "n") "SET";
                              Connect 0 None 1] empty_world) !! 1 = Some this)
    as (this & Hthis) by (eexists; vm_compute; reflexivity).
  exists this. split; [exact Hthis|].
  destruct (send_passes_undefined_context _ 1 this Hthis) as (_ & H & _). exact H.
Defined.

(** ** Invariants of a dispatch *)

Lemma msg_stable_refl (a : esb_message) : msg_stable a a.
Proof. by repeat split. Qed.

Lemma msg_stable_trans (a b c : esb_message) :
  msg_stable a b → msg_stable b c → msg_stable a c.
Proof.
  intros (H1 & H2 & H3) (H4 & H5 & H6). split_and!; [congruence..|]. eauto.
Qed.

Lemma stable_refl (w : world) : stable w w.
Proof.
  split_and!; try done. intros m. destruct (msgs w !! m); constructor.
  apply msg_stable_refl.
Qed.

Lemma stable_trans (w1 w2 w3 : world) : stable w1 w2 → stable w2 w3 → stable w1 w3.
Proof.
  intros (A1 & A2 & A3 & A4 & A5 & A6 & A7) (B1 & B2 & B3 & B4 & B5 & B6 & B7).
  split_and!; try congruence; try (by etrans).
  intros m. specialize (A7 m). specialize (B7 m).
  destruct A7; inversion B7; subst; constructor. by eapply msg_stable_trans.
Qed.

Lemma preserves_ret {A} (a : A) : preserves (ret a).
Proof. intros w. apply stable_refl. Qed.

Lemma preserves_throw {A} (e : error) : preserves (@throw A e).
Proof. intros w. apply stable_refl. Qed.

Lemma preserves_bind {A B} (x : M A) (k : A → M B) :
  preserves x → (∀ a, preserves (k a)) → preserves (bind x k).
Proof.
  intros Hx Hk w. unfold bind. specialize (Hx w).
  destruct (x w) as [[a|e| |] w']; simpl in *; [|done..].
  eapply stable_trans; [done|]. apply Hk.
Qed.

Lemma preserves_try_catch (body : M unit) (handler : error → M unit) :
  preserves body → (∀ e, preserves (handler e)) → preserves (try_catch body handler).
Proof.
  intros Hb Hh w. unfold try_catch. specialize (Hb w).
  destruct (body w) as [[a|e| |] w']; simpl in *; [done| |done..].
  eapply stable_trans; [done|]. apply Hh.
Qed.

Lemma preserves_forEach {A} (xs : list A) (body : A → M unit) :
  (∀ x, preserves (body x)) → preserves (forEach xs body).
Proof.
  intros Hb. induction xs as [|x xs IH]; simpl; [apply preserves_ret|].
  apply preserves_bind; [apply Hb | done].
Qed.

Lemma stable_same_msgs (w w' : world) :
  comps w' = comps w → immediates w' = immediates w → next_mid w' = next_mid w →
  trace w `prefix_of` trace w' → timers w `prefix_of` timers w' →
  requests w `prefix_of` requests w' → msgs w' = msgs w → stable w w'.
Proof.
  intros ?????? Hm. split_and!; try done. intros m. rewrite Hm.
  destruct (msgs w !! m); constructor. apply msg_stable_refl.
Qed.

Lemma preserves_emit (e : event) : preserves (emit e).
Proof.
  intros w. apply stable_same_msgs; try done. simpl. by apply prefix_app_r.
Qed.

Lemma preserves_get_msg (m : mid) : preserves (get_msg m).
Proof. intros w. unfold get_msg. destruct (msgs w !! m); apply stable_refl. Qed.

Lemma preserves_get_comp (c : cid) : preserves (get_comp c).
Proof. intros w. unfold get_comp. destruct (comps w !! c); apply stable_refl. Qed.

Lemma stable_update_msg (w : world) (m : mid) (a b : esb_message) :
  msgs w !! m = Some a → msg_stable a b →
  stable w (set_msgs (<[m := b]> (msgs w)) (next_mid w) w).
Proof.
  intros Ha Hab. split_and!; try done. intros m'. simpl.
  destruct (decide (m' = m)) as [->|Hne].
  - rewrite lookup_insert_eq, Ha. by constructor.
  - rewrite lookup_insert_ne by done. destruct (msgs w !! m'); constructor.
    apply msg_stable_refl.
Qed.

Lemma preserves_set_payload (m : mid) (v : value) : preserves (set_payload m v).
Proof.
  intros w. unfold set_payload, bind, get_msg, put_msg, modify.
  destruct (msgs w !! m) as [a|] eqn:Ha; simpl; [|apply stable_refl].
  apply (stable_update_msg w m a); [done|]. by repeat split.
Qed.

Lemma preserves_unsupported {A} : preserves (@unsupported A).
Proof. intros w. apply stable_refl. Qed.

Lemma preserves_allocate (o : obj) : preserves (allocate o).
Proof. intros w. by apply stable_same_msgs. Qed.

Lemma preserves_set_var (m : mid) (k : string) (v : value) : preserves (set_var m k v).
Proof.
  intros w. unfold set_var, bind, get_msg, put_msg, modify.
  destruct (msgs w !! m) as [a|] eqn:Ha; simpl; [|apply stable_refl].
  destruct (_ && _); [destruct v; apply stable_refl|].
  apply (stable_update_msg w m a); [done|]. split_and!; try done.
  intros k' Hk'. simpl. destruct (decide (k' = k)) as [->|Hne].
  - rewrite lookup_insert_eq. eauto.
  - by rewrite lookup_insert_ne.
Qed.

Lemma preserves_js_clone (v : value) : preserves (js_clone v).
Proof.
  intros w. unfold js_clone. destruct (clone (objs w) (fresh w) v) as [[??]?].
  by apply stable_same_msgs.
Qed.

Lemma preserves_Object_assign (target source : value) :
  preserves (Object_assign target source).
Proof.
  intros w. destruct target; simpl; try apply stable_refl.
  - case_bool_decide; apply stable_refl.
  - unfold modify. simpl. destruct (objs w !! l); [|apply stable_refl].
    by apply stable_same_msgs.
  - case_bool_decide; apply stable_refl.
Qed.

Lemma preserves_call_callback (c : cid) (args : cb_args) : preserves (call_callback c args).
Proof.
  apply preserves_bind; [apply preserves_get_comp|]. intros this.
  destruct (c_callback this) as [cb|]; [|apply preserves_throw].
  apply preserves_bind; [apply preserves_emit|]. intros _.
  destruct (cb_raises cb args); [apply preserves_throw | apply preserves_ret].
Qed.

Lemma preserves_mapper (om : object_mapper) (source map : value) :
  preserves (λ w, let '(r, h, nx) := om (objs w) (fresh w) source map in
                  (r, set_heap h nx w)).
Proof. intros w. destruct (om _ _ _ _) as [[??]?]. by apply stable_same_msgs. Qed.

Lemma preserves_add_timer (t : value * cid * mid) :
  preserves (modify (λ w, set_timers (timers w ++ [t]) w)).
Proof. intros w. apply stable_same_msgs; try done. simpl. by apply prefix_app_r. Qed.

Lemma preserves_add_request (r : request) :
  preserves (modify (λ w, set_requests (requests w ++ [r]) w)).
Proof. intros w. apply stable_same_msgs; try done. simpl. by apply prefix_app_r. Qed.

Create HintDb preserves.

#[local] Hint Resolve preserves_ret preserves_throw preserves_emit preserves_get_msg
  preserves_get_comp preserves_set_payload preserves_set_var preserves_js_clone
  preserves_Object_assign preserves_call_callback preserves_mapper preserves_add_timer
  preserves_add_request preserves_unsupported preserves_allocate : preserves.

Ltac preserves :=
  repeat first
    [ progress eauto with preserves
    | apply preserves_bind; [|intros ?]
    | apply preserves_try_catch; [|intros ?]
    | apply preserves_forEach; intros ? ].

Lemma preserves_next (snd : sender) (c : cid) (name : option string) (m : mid) :
  (∀ c' m', preserves (snd c' m')) → preserves (next snd c name m).
Proof.
  intros Hsnd. unfold next. apply preserves_bind; [apply preserves_get_comp|].
  intros this. destruct (c_channels this !! default "default" name);
    [|destruct (inherited _); [apply preserves_throw | apply preserves_ret]].
  unfold debugMessage. preserves.
Qed.

Lemma preserves_work (snd : sender) (fn : workfn) (c : cid) (ctx : value) (m : mid) :
  (∀ c' m', preserves (snd c' m')) → preserves (work snd fn c ctx m).
Proof.
  intros Hsnd. pose proof (preserves_next snd) as Hnext.
  destruct fn as [|om| | | | |pathArguments|];
    unfold work, debugMessage, debugCall; preserves.
  - destruct (get_property _ _) as [stored|]; [destruct (truthy stored)|]; preserves.
  - destruct (get_field _ "method"); preserves.
    destruct (String.eqb _ _); preserves.
Qed.

Lemma preserves_base_send (snd : sender) (c : cid) (m : mid) :
  (∀ c' m', preserves (snd c' m')) → preserves (base_send snd c m).
Proof.
  intros Hsnd. pose proof (preserves_work snd) as Hwork.
  unfold base_send, invoke_fn, debugComponent. preserves.
Qed.

Lemma preserves_send (fuel : nat) (c : cid) (m : mid) : preserves (send fuel c m).
Proof.
  revert c m. induction fuel as [|fuel IH]; intros c m.
  { intros w. apply stable_refl. }
  pose proof (preserves_base_send (send fuel)) as Hbase.
  rewrite send_S. apply preserves_bind; [apply preserves_get_comp|]. intros this.
  destruct (c_fn this); preserves.
Qed.

(** X1.  A send, however deep it goes, leaves the component graph as it
    found it (channels, callbacks and every other property of every
    component) and queues no immediate: no component rewires the graph or
    defers through [post] while a message is dispatched. *)
Theorem send_keeps_wiring_and_queue (fuel : nat) (c : cid) (m : mid) (w : world) :
  comps (send fuel c m w).2 = comps w ∧
  immediates (send fuel c m w).2 = immediates w.
Proof. destruct (preserves_send fuel c m w) as (H1 & H2 & _). by split. Qed.

(** X2.  A send creates no message and removes none, and never changes the
    context or the [originalPayload] reference of any message: whatever the
    components on the way do, they only touch [payload] and [vars]. *)
Theorem send_keeps_message_identity (fuel : nat) (c : cid) (m m0 : mid) (w : world) :
  msg_identity <$> (msgs (send fuel c m w).2 !! m0) = msg_identity <$> (msgs w !! m0).
Proof.
  destruct (preserves_send fuel c m w) as (_ & _ & _ & _ & _ & _ & H).
  specialize (H m0). destruct H as [a b (H1 & H2 & _)|]; [|done].
  simpl. unfold msg_identity. by rewrite H1, H2.
Qed.

(** X3.  A send never removes a variable: a name present in [vars] of a
    message before the send is present after it (Variable-set may replace
    its value; nothing deletes it). *)
Theorem send_never_removes_a_variable
    (fuel : nat) (c : cid) (m m0 : mid) (w : world) (msg : esb_message) (k : string) :
  msgs w !! m0 = Some msg →
  is_Some (m_vars msg !! k) →
  ∃ msg', msgs (send fuel c m w).2 !! m0 = Some msg' ∧ is_Some (m_vars msg' !! k).
Proof.
  intros Hmsg Hk.
  destruct (preserves_send fuel c m w) as (_ & _ & _ & _ & _ & _ & H).
  specialize (H m0). rewrite Hmsg in H. inversion H as [a b (_ & _ & Hv) Ha Hb|]; subst.
  exists b. split; [done|]. by apply Hv.
Qed.

(** ** The sink component *)

(** X4.  A Result component is terminal: sent a message, it invokes its
    completion callback once with [(null, message)] and returns; it changes
    nothing else and forwards the message to no target, whatever is
    connected to it. *)
Theorem result_component_absorbs
    (fuel : nat) (c : cid) (m : mid) (w : world)
    (this : esb_component) (msg : esb_message) (cb : callback) :
  comps w !! c = Some this →
  c_fn this = FnResult →
  msgs w !! m = Some msg →
  c_callback this = Some cb →
  cb_raises cb (CbResult m) = None →
  send (S fuel) c m w =
  (Ok tt,
   set_trace (trace w ++ [DbgStarted c (correlationId (m_context msg));
                          Called (cb_name cb) (CbResult m)]) w).
Proof.
  intros Hthis Hfn Hmsg Hcb Hquiet.
  rewrite (send_unfold fuel c m w this msg Hthis Hmsg). rewrite Hfn.
  unfold try_catch, invoke_fn, bind at 1. unfold get_comp at 1. simpl.
  rewrite Hthis, Hfn. unfold work, call_callback, bind, get_comp. simpl.
  rewrite Hthis, Hcb. unfold emit, modify. rewrite Hquiet. simpl.
  unfold set_trace. simpl. by rewrite <- app_assoc.
Qed.

(** X5.  The callback of a Result component is both its completion callback
    and its failure sink: when it raises on [(null, message)], [send]
    catches the error and invokes the same callback a second time, with the
    failure record whose cause is the error the callback itself raised. *)
Theorem result_callback_invoked_again_on_its_own_error
    (fuel : nat) (c : cid) (m : mid) (w : world)
    (this : esb_component) (msg : esb_message) (cb : callback) (e : error) :
  let record := CbFailure {| ei_component := c; ei_message := m; ei_cause := e |} in
  comps w !! c = Some this →
  c_fn this = FnResult →
  msgs w !! m = Some msg →
  c_callback this = Some cb →
  cb_raises cb (CbResult m) = Some e →
  cb_raises cb record = None →
  send (S fuel) c m w =
  (Ok tt,
   set_trace (trace w ++ [DbgStarted c (correlationId (m_context msg));
                          Called (cb_name cb) (CbResult m);
                          Called (cb_name cb) record]) w).
Proof.
  intros record Hthis Hfn Hmsg Hcb Hraise Hquiet.
  rewrite (send_unfold fuel c m w this msg Hthis Hmsg). rewrite Hfn.
  unfold try_catch, invoke_fn, bind at 1. unfold get_comp at 1. simpl.
  rewrite Hthis, Hfn. unfold work, call_callback, bind, get_comp. simpl.
  rewrite Hthis, Hcb. unfold emit, modify. rewrite Hraise. simpl.
  rewrite Hthis, Hcb. fold record. rewrite Hquiet.
  unfold set_trace. simpl. by rewrite <- !app_assoc.
Qed.

(** ** Errors that escape [send] *)

Lemma send_work_raised (fuel : nat) (c : cid) (m : mid) (w w' : world)
    (this : esb_component) (msg : esb_message) (e : error) :
  comps w !! c = Some this →
  msgs w !! m = Some msg →
  work (send fuel) (c_fn this) c (get_field this "context") m
    (set_trace (trace w ++ send_entry (c_fn this) c m msg) w) = (Throw e, w') →
  comps w' = comps w ∧
  send (S fuel) c m w =
  call_callback c (CbFailure {| ei_component := c; ei_message := m; ei_cause := e |}) w'.
Proof.
  intros Hthis Hmsg Hwork. split.
  - pose proof (keeps_work (send fuel) (c_fn this) c (get_field this "context") m
                  (keeps_send fuel)
                  (set_trace (trace w ++ send_entry (c_fn this) c m msg) w)) as Hk.
    by rewrite Hwork in Hk.
  - rewrite (send_unfold fuel c m w this msg Hthis Hmsg).
    unfold try_catch, invoke_fn, bind. unfold get_comp at 1. simpl. rewrite Hthis.
    by rewrite Hwork.
Qed.

(** X6.  When the work of a component without a callback raises, [send]
    raises to its caller, and what it raises is the [TypeError] of calling
    the missing callback: the error raised by the work is lost, whatever it
    was.  Nothing is recorded after the point of failure. *)
Theorem send_without_callback_masks_the_error
    (fuel : nat) (c : cid) (m : mid) (w w' : world)
    (this : esb_component) (msg : esb_message) (e : error) :
  let entered := set_trace (trace w ++ send_entry (c_fn this) c m msg) w in
  comps w !! c = Some this →
  msgs w !! m = Some msg →
  work (send fuel) (c_fn this) c (get_field this "context") m entered = (Throw e, w') →
  c_callback this = None →
  send (S fuel) c m w = (Throw (TypeError "this.callback is not a function"), w').
Proof.
  intros entered Hthis Hmsg Hwork Hcb.
  destruct (send_work_raised fuel c m w w' this msg e Hthis Hmsg Hwork) as [Hcomps ->].
  unfold call_callback, bind, get_comp. by rewrite Hcomps, Hthis, Hcb.
Qed.

(** X7.  When the failure callback itself raises on the failure record,
    [send] raises that error to its caller, after the record has been
    delivered once. *)
Theorem send_raises_what_the_callback_raises
    (fuel : nat) (c : cid) (m : mid) (w w' : world)
    (this : esb_component) (msg : esb_message) (cb : callback) (e e' : error) :
  let entered := set_trace (trace w ++ send_entry (c_fn this) c m msg) w in
  let record := CbFailure {| ei_component := c; ei_message := m; ei_cause := e |} in
  comps w !! c = Some this →
  msgs w !! m = Some msg →
  work (send fuel) (c_fn this) c (get_field this "context") m entered = (Throw e, w') →
  c_callback this = Some cb →
  cb_raises cb record = Some e' →
  send (S fuel) c m w =
  (Throw e', set_trace (trace w' ++ [Called (cb_name cb) record]) w').
Proof.
  intros entered record Hthis Hmsg Hwork Hcb Hraise.
  destruct (send_work_raised fuel c m w w' this msg e Hthis Hmsg Hwork) as [Hcomps ->].
  unfold call_callback, bind, get_comp. rewrite Hcomps, Hthis, Hcb.
  unfold emit, modify. fold record. by rewrite Hraise.
Qed.

Lemma forEach_app {A} (xs ys : list A) (body : A → M unit) (w : world) :
  forEach (xs ++ ys) body w = (forEach xs body >> forEach ys body) w.
Proof.
  revert w. induction xs as [|x xs IH]; intros w; [done|].
  cbn [forEach app]. unfold bind in *.
  destruct (body x w) as [[[]|e| |] w1]; [|done..].
  apply IH.
Qed.

(** X8.  The fan-out of [next] stops at the first target whose [send]
    raises: [next] raises that error in the world that target left, and the
    targets registered after it are not sent the message. *)
Theorem next_stops_at_a_raising_target
    (snd : sender) (c : cid) (name : option string) (m : mid) (w w1 w2 : world)
    (this : esb_component) (before after : list cid) (t : cid) (e : error) :
  let ch := default "default" name in
  let deliver := λ t, debugMessage (DbgPassing c m t ch) >> snd t m in
  comps w !! c = Some this →
  c_channels this !! ch = Some (before ++ t :: after) →
  forEach before deliver w = (Ok tt, w1) →
  deliver t w1 = (Throw e, w2) →
  next snd c name m w = (Throw e, w2).
Proof.
  intros ch deliver Hthis Hch Hbefore Ht.
  rewrite (next_eq snd w c this name m Hthis). fold ch. rewrite Hch.
  fold deliver. rewrite forEach_app. unfold bind at 1. rewrite Hbefore.
  simpl. unfold bind at 1. by rewrite Ht.
Qed.

(** X9.  An error that escapes a component without a callback is caught by
    the Logger that forwarded the message to it, when that Logger has a
    callback.  The record the callback receives names the Logger as the
    component and the [TypeError] of the missing callback as the cause:
    neither the component whose work failed nor the error it raised appears
    in it. *)
Theorem logger_reports_what_escapes_its_target
    (fuel : nat) (lg t : cid) (m : mid) (w w' : world)
    (this_l this_t : esb_component) (msg : esb_message) (cb : callback) (e : error) :
  let record := CbFailure {| ei_component := lg; ei_message := m;
                             ei_cause := TypeError "this.callback is not a function" |} in
  let arrived :=
    set_trace (trace w ++ [ConsoleLog lg m; DbgStarted lg (correlationId (m_context msg));
                           DbgPassing lg m t "default"]
               ++ send_entry (c_fn this_t) t m msg) w in
  comps w !! lg = Some this_l →
  c_fn this_l = FnLogger →
  c_channels this_l !! "default" = Some [t] →
  c_callback this_l = Some cb →
  comps w !! t = Some this_t →
  c_callback this_t = None →
  msgs w !! m = Some msg →
  work (send fuel) (c_fn this_t) t (get_field this_t "context") m arrived = (Throw e, w') →
  cb_raises cb record = None →
  send (S (S fuel)) lg m w =
  (Ok tt, set_trace (trace w' ++ [Called (cb_name cb) record]) w').
Proof.
  intros record arrived Hl Hfn Hch Hcb Ht Hnone Hmsg Hwork Hquiet.
  set (passing := set_trace (trace w ++ [ConsoleLog lg m;
                                         DbgStarted lg (correlationId (m_context msg));
                                         DbgPassing lg m t "default"]) w).
  assert (arrived = set_trace (trace passing ++ send_entry (c_fn this_t) t m msg) passing)
    as Harr.
  { unfold arrived, passing, set_trace. simpl. by rewrite <- !app_assoc. }
  rewrite Harr in Hwork.
  destruct (send_work_raised fuel t m passing w' this_t msg e Ht Hmsg Hwork)
    as [Hcomps Hinner].
  assert (send (S fuel) t m passing
          = (Throw (TypeError "this.callback is not a function"), w')) as Hesc.
  { rewrite Hinner. unfold call_callback, bind, get_comp.
    rewrite Hcomps. simpl. by rewrite Ht, Hnone. }
  assert (work (send (S fuel)) (c_fn this_l) lg (get_field this_l "context") m
            (set_trace (trace w ++ send_entry (c_fn this_l) lg m msg) w)
          = (Throw (TypeError "this.callback is not a function"), w')) as Hout.
  { rewrite Hfn. unfold work.
    rewrite (next_eq (send (S fuel)) _ lg this_l None m) by done. simpl. rewrite Hch.
    cbn [forEach]. unfold bind at 1. unfold bind at 1. unfold debugMessage, emit, modify.
    unfold send_entry. simpl.
    replace (set_trace _ (set_trace _ w)) with passing.
    - by rewrite Hesc.
    - unfold passing, set_trace. simpl. by rewrite <- !app_assoc. }
  destruct (send_work_raised (S fuel) lg m w w' this_l msg _ Hl Hmsg Hout)
    as [Hcomps' ->].
  unfold call_callback, bind, get_comp. rewrite Hcomps', Hl, Hcb.
  unfold emit, modify. fold record. by rewrite Hquiet.
Qed.

(** ** The Delay and Transform components *)

(** X10.  A Sleep component never forwards in the caller's turn: sent a
    message, it returns after adding exactly one timer, which holds its
    [sleepMiliseconds], itself and the message by reference; messages, heap
    and every other timer stay as they were, whatever is connected to it. *)
Theorem sleep_component_only_sets_a_timer
    (fuel : nat) (c : cid) (m : mid) (w : world)
    (this : esb_component) (msg : esb_message) :
  comps w !! c = Some this →
  c_fn this = FnSleep →
  msgs w !! m = Some msg →
  send (S fuel) c m w =
  (Ok tt,
   set_timers (timers w ++ [(get_field this "sleepMiliseconds", c, m)])
     (set_trace (trace w ++ [DbgStarted c (correlationId (m_context msg));
                             DbgWork c m "sleeping"]) w)).
Proof.
  intros Hthis Hfn Hmsg.
  rewrite (send_unfold fuel c m w this msg Hthis Hmsg). rewrite Hfn.
  unfold try_catch, invoke_fn, bind at 1. unfold get_comp at 1. simpl.
  rewrite Hthis, Hfn. unfold work, bind, get_comp, debugMessage, emit, modify. simpl.
  rewrite Hthis. simpl. unfold set_timers, set_trace. simpl.
  by rewrite <- app_assoc.
Qed.

Lemma work_Mapper_cases
    (snd : sender) (om : object_mapper) (c : cid) (ctx : value) (m : mid) (w : world)
    (this : esb_component) (msg : esb_message) :
  comps w !! c = Some this →
  msgs w !! m = Some msg →
  match om (objs w) (fresh w) (m_payload msg) (get_field this "map") with
  | (Ok result, h, nx) =>
      work snd (FnMapper om) c ctx m w =
      next snd c None m
        (set_msgs (<[m := with_payload result msg]> (msgs w)) (next_mid w)
           (set_trace (trace w ++ [DbgWork c m "processed map"]) (set_heap h nx w)))
  | (Throw e, h, nx) =>
      work snd (FnMapper om) c ctx m w = (Throw e, set_heap h nx w)
  | (OutOfFuel, h, nx) =>
      work snd (FnMapper om) c ctx m w = (OutOfFuel, set_heap h nx w)
  | (Unsupported, h, nx) =>
      work snd (FnMapper om) c ctx m w = (Unsupported, set_heap h nx w)
  end.
Proof.
  intros Hthis Hmsg.
  cbv [work bind get_comp get_msg debugMessage emit modify set_payload put_msg].
  rewrite Hmsg, Hthis.
  destruct (om (objs w) (fresh w) (m_payload msg) (get_field this "map"))
    as [[[r|e| |] h] nx]; simpl; try done.
  by rewrite Hmsg.
Qed.

(** X11.  A failure of the mapping can never be reported: a component built
    by [createMapperComponent] has no callback, so when the mapping raises
    on the payload, [send] raises the [TypeError] of the missing callback
    to its caller, with every message as it was and nothing forwarded. *)
Theorem mapper_failure_cannot_be_reported
    (fuel : nat) (om : object_mapper) (map : value) (m : mid) (w : world)
    (msg : esb_message) (e : error) (h : heap) (nx : loc) :
  msgs w !! m = Some msg →
  om (objs w) (fresh w) (m_payload msg) map = (Throw e, h, nx) →
  ∃ w0 w',
    createMapperComponent om map w = (Ok (next_cid w), w0) ∧
    send (S fuel) (next_cid w) m w0
      = (Throw (TypeError "this.callback is not a function"), w') ∧
    msgs w' = msgs w.
Proof.
  intros Hmsg Hom. eexists _, _. split; [reflexivity|].
  set (w0 := (set_comps _ _ _)).
  set (this := {| c_fn := FnMapper om; c_id := uuids w; c_channels := ∅;
                  c_callback := None; c_fields := {["map" := map]} |}).
  assert (comps w0 !! next_cid w = Some this) as Hthis by apply lookup_insert_eq.
  assert (msgs w0 !! m = Some msg) as Hmsg0 by exact Hmsg.
  pose proof (work_Mapper_cases (send fuel) om (next_cid w) (get_field this "context") m
                (set_trace (trace w0 ++ send_entry (c_fn this) (next_cid w) m msg) w0)
                this msg Hthis Hmsg0) as Hwork.
  assert (get_field this "map" = map) as Hmap.
  { unfold get_field, this. simpl. by rewrite lookup_singleton_eq. }
  simpl in Hwork. rewrite Hmap, Hom in Hwork.
  destruct (send_work_raised fuel (next_cid w) m w0 _ this msg e Hthis Hmsg0 Hwork)
    as [Hcomps Hsend].
  rewrite Hsend. unfold call_callback, bind, get_comp. rewrite Hcomps, Hthis. simpl.
  split; reflexivity.
Qed.

(** ** Frames and repetition of the variable and merge components *)

(** X12.  Variable-set under a name other than [__proto__] touches only its
    own variable: the payload, the context and [originalPayload] of the
    message, every other variable, every other message and every object
    that already existed are as before; the variable is replaced when it
    existed. *)
Theorem varset_touches_only_its_variable
    (snd : sender) (c : cid) (ctx : value) (m : mid) (w : world)
    (this : esb_component) (msg : esb_message) :
  let key := to_key (get_field this "variableName") in
  key ≠ "__proto__" →
  heap_closed (objs w) (fresh w) →
  comps w !! c = Some this →
  msgs w !! m = Some msg →
  val_ok (objs w) (m_payload msg) →
  ∃ w1 msg1,
    work snd FnVarSet c ctx m w = next snd c None m w1 ∧
    msgs w1 !! m = Some msg1 ∧
    m_payload msg1 = m_payload msg ∧
    m_context msg1 = m_context msg ∧
    m_originalPayload msg1 = m_originalPayload msg ∧
    is_Some (m_vars msg1 !! key) ∧
    (∀ k, k ≠ key → m_vars msg1 !! k = m_vars msg !! k) ∧
    (∀ m', m' ≠ m → msgs w1 !! m' = msgs w !! m') ∧
    (∀ l, l < fresh w → objs w1 !! l = objs w !! l).
Proof.
  intros key Hkey Hc Hthis Hmsg Hp.
  rewrite (work_VarSet_eq snd c ctx m w this msg Hthis Hmsg Hkey). fold key.
  destruct (clone (objs w) (fresh w) (m_payload msg)) as [[v' h1] nx1] eqn:Hcl.
  destruct (clone_spec _ _ _ _ _ _ Hc Hp Hcl) as (_ & _ & _ & Hsame & _ & _).
  eexists _, _. split; [done|]. simpl. rewrite lookup_insert_eq.
  split; [done|]. simpl. split_and!; try done.
  - rewrite lookup_insert_eq. eauto.
  - intros k Hne. by rewrite lookup_insert_ne.
  - intros m' Hne. by rewrite lookup_insert_ne.
Qed.

(** X19.  Variable-get touches only the payload: the variables (the one it
    reads included), the context and [originalPayload] of the message,
    every other message and every object that already existed are as
    before, so the stored snapshot can be restored again later. *)
Theorem varget_touches_only_the_payload
    (snd : sender) (c : cid) (ctx : value) (m : mid) (w : world)
    (this : esb_component) (msg : esb_message) :
  let key := to_key (get_field this "variableName") in
  heap_closed (objs w) (fresh w) →
  comps w !! c = Some this →
  msgs w !! m = Some msg →
  (∀ v, m_vars msg !! key = Some v → val_ok (objs w) v) →
  ∃ w1 msg1,
    work snd FnVarGet c ctx m w = next snd c None m w1 ∧
    msgs w1 !! m = Some msg1 ∧
    m_vars msg1 = m_vars msg ∧
    m_context msg1 = m_context msg ∧
    m_originalPayload msg1 = m_originalPayload msg ∧
    (∀ m', m' ≠ m → msgs w1 !! m' = msgs w !! m') ∧
    (∀ l, l < fresh w → objs w1 !! l = objs w !! l).
Proof.
  intros key Hc Hthis Hmsg Hv.
  rewrite (work_VarGet_eq snd c ctx m w this msg Hthis Hmsg). fold key.
  unfold get_property. destruct (m_vars msg !! key) as [v|] eqn:Hk.
  - destruct (truthy v) eqn:Ht.
    + destruct (clone (objs w) (fresh w) v) as [[v' h1] nx1] eqn:Hcl.
      destruct (clone_spec _ _ _ _ _ _ Hc (Hv v eq_refl) Hcl) as (_ & _ & _ & Hsame & _ & _).
      eexists _, _. split; [done|]. simpl. rewrite lookup_insert_eq.
      split; [done|]. simpl. split_and!; try done.
      intros m' Hne. by rewrite lookup_insert_ne.
    + eexists _, _. split; [done|]. simpl. split; [exact Hmsg|]. done.
  - destruct (Object_prototype !! key) as [b|].
    + unfold clone. simpl. eexists _, _. split; [done|]. simpl. rewrite lookup_insert_eq.
      split; [done|]. simpl. split_and!; try done.
      intros m' Hne. by rewrite lookup_insert_ne.
    + destruct (String.eqb key "__proto__").
      * eexists _, _. split; [done|]. simpl. rewrite lookup_insert_eq.
        split; [done|]. simpl. split_and!; try done.
        -- intros m' Hne. by rewrite lookup_insert_ne.
        -- intros l Hl. rewrite lookup_insert_ne; [done|lia].
      * eexists _, _. split; [done|]. simpl. split; [exact Hmsg|]. done.
Qed.

Lemma own_props_insert (h : heap) (l : loc) (o : obj) (v : value) :
  h !! l = Some o →
  own_props (<[l := own_props h v ∪ o]> h) v ∪ (own_props h v ∪ o) = own_props h v ∪ o.
Proof.
  intros Hl. destruct v as [| | | | |lv|?]; simpl;
    try (by rewrite (left_id_L ∅ (∪))).
  - by rewrite (assoc_L (∪)), (idemp_L (∪)).
  - destruct (decide (lv = l)) as [->|Hne].
    + rewrite lookup_insert_eq, Hl. simpl. by rewrite !(idemp_L (∪)).
    + rewrite lookup_insert_ne by done.
      by rewrite (assoc_L (∪)), (idemp_L (∪)).
Qed.

(** X13.  Merging twice is merging once: on a message whose payload is an
    object, a second Merge of the same variable right after the first
    leaves the heap and the messages exactly as the first left them. *)
Theorem combine_twice_is_combine_once
    (snd : sender) (c : cid) (ctx : value) (m : mid) (w : world)
    (this : esb_component) (msg : esb_message) (l : loc) (o : obj) :
  comps w !! c = Some this →
  msgs w !! m = Some msg →
  m_payload msg = VRef l →
  objs w !! l = Some o →
  ∃ w1 w2,
    work snd FnCombine c ctx m w = next snd c None m w1 ∧
    work snd FnCombine c ctx m w1 = next snd c None m w2 ∧
    objs w2 = objs w1 ∧ msgs w2 = msgs w1 ∧ fresh w2 = fresh w1.
Proof.
  intros Hthis Hmsg Hp Hl.
  rewrite (work_Combine_eq snd c ctx m w this msg Hthis Hmsg l o Hp Hl).
  set (stored := default VUndef (m_vars msg !! to_key (get_field this "variableName"))).
  set (source := if truthy stored then stored else VUndef).
  simpl. eexists _, _. split; [reflexivity|].
  erewrite (work_Combine_eq snd c ctx m _ this msg); [| done | done | done |].
  2:{ simpl. apply lookup_insert_eq. }
  split; [reflexivity|]. simpl. fold stored. fold source.
  split_and!; try done.
  rewrite insert_insert_eq. f_equal. by apply own_props_insert.
Qed.

Lemma work_Combine_no_payload
    (snd : sender) (c : cid) (ctx : value) (m : mid) (w : world)
    (this : esb_component) (msg : esb_message) :
  comps w !! c = Some this →
  msgs w !! m = Some msg →
  m_payload msg = VNull ∨ m_payload msg = VUndef →
  work snd FnCombine c ctx m w
  = (Throw (TypeError "Cannot convert undefined or null to object"), w).
Proof.
  intros Hthis Hmsg Hp.
  cbv [work bind get_comp get_msg Object_assign].
  rewrite Hthis, Hmsg. by destruct Hp as [-> | ->].
Qed.

(** X20.  A Merge component cannot process a message without a payload:
    whatever the variable name, and whether or not the variable exists, a
    component built by [createCombineComponent] that is sent a message whose
    payload is [null] or [undefined] raises in [Object.assign], and, having
    no callback, makes [send] raise the [TypeError] of the missing callback;
    heap and messages are as they were and nothing is forwarded. *)
Theorem combine_without_payload_raises
    (fuel : nat) (variableName : value) (m : mid) (w : world) (msg : esb_message) :
  msgs w !! m = Some msg →
  m_payload msg = VNull ∨ m_payload msg = VUndef →
  ∃ w0 w',
    createCombineComponent variableName w = (Ok (next_cid w), w0) ∧
    send (S fuel) (next_cid w) m w0
      = (Throw (TypeError "this.callback is not a function"), w') ∧
    msgs w' = msgs w ∧ objs w' = objs w ∧
    trace w' = trace w ++ [DbgStarted (next_cid w) (correlationId (m_context msg))].
Proof.
  intros Hmsg Hp. eexists _, _. split; [reflexivity|].
  set (w0 := (set_comps _ _ _)).
  set (this := {| c_fn := FnCombine; c_id := uuids w; c_channels := ∅;
                  c_callback := None; c_fields := {["variableName" := variableName]} |}).
  assert (comps w0 !! next_cid w = Some this) as Hthis by apply lookup_insert_eq.
  assert (msgs w0 !! m = Some msg) as Hmsg0 by exact Hmsg.
  assert (work (send fuel) (c_fn this) (next_cid w) (get_field this "context") m
            (set_trace (trace w0 ++ send_entry (c_fn this) (next_cid w) m msg) w0)
          = (Throw (TypeError "Cannot convert undefined or null to object"),
             set_trace (trace w0 ++ send_entry (c_fn this) (next_cid w) m msg) w0)) as Hwork.
  { exact (work_Combine_no_payload (send fuel) (next_cid w) _ m
             (set_trace (trace w0 ++ send_entry (c_fn this) (next_cid w) m msg) w0)
             this msg Hthis Hmsg0 Hp). }
  destruct (send_work_raised fuel (next_cid w) m w0 _ this msg _ Hthis Hmsg0 Hwork)
    as [Hcomps Hsend].
  rewrite Hsend. unfold call_callback, bind, get_comp. rewrite Hcomps, Hthis. simpl.
  split; [reflexivity|]. done.
Qed.

(** ** The Call component *)

(** X14.  [createCallComponent(callback, host, URI, method, pathArguments)]
    builds a component that uses [host] as its URL, [URI] as its method and
    [method] as its path arguments, and ignores [pathArguments]: sent a
    message, it queues one request to [host], a GET without data exactly
    when [URI] spells GET up to case and otherwise a POST carrying the
    payload, with [method] as the path when it is truthy. *)
Theorem createCallComponent_takes_the_verb_from_URI
    (fuel : nat) (callback : option callback) (host method pathArguments : value)
    (URI : string) (m : mid) (w : world) (msg : esb_message) :
  msgs w !! m = Some msg →
  ∃ w0 w1,
    createCallComponent callback host (VStr URI) method pathArguments w
      = (Ok (next_cid w), w0) ∧
    send (S fuel) (next_cid w) m w0 = (Ok tt, w1) ∧
    msgs w1 = msgs w ∧
    requests w1 =
      requests w ++
      [{| rq_component := next_cid w;
          rq_message := m;
          rq_verb := if String.eqb (toUpperCase URI) "GET" then GET else POST;
          rq_url := host;
          rq_path := if truthy method then Some method else None;
          rq_data := if String.eqb (toUpperCase URI) "GET" then None
                     else Some (m_payload msg) |}].
Proof.
  intros Hmsg.
  assert (∀ k, ({["URL" := host; "method" := VStr URI; "pathArguments" := method]}
                  : gmap string value) !! k
               = if decide (k = "URL") then Some host
                 else if decide (k = "method") then Some (VStr URI)
                 else if decide (k = "pathArguments") then Some method else None)
    as Hfields.
  { intros k. repeat case_decide; subst; simplify_map_eq; done. }
  destruct (String.eqb (toUpperCase URI) "GET") eqn:Hget;
    (eexists _, _; split; [reflexivity|];
     erewrite send_unfold; [| simpl; apply lookup_insert_eq | simpl; exact Hmsg];
     unfold try_catch, invoke_fn, bind at 1; unfold get_comp at 1; simpl;
     rewrite lookup_insert_eq; simpl;
     unfold work, bind at 1; unfold get_comp at 1; simpl; rewrite lookup_insert_eq;
     unfold get_field; simpl; rewrite !Hfields; simpl; rewrite Hget;
     cbv [bind debugCall emit modify get_msg]; simpl; rewrite ?Hmsg;
     split; [reflexivity|]; done).
Qed.

Lemma read_field_world (target : value) (k : string) (w : world) :
  (read_field target k w).2 = w.
Proof. destruct target; simpl; try done. by destruct (objs w !! l). Qed.

Lemma retrieveResponseStatus_world (response : value) (w : world) :
  (retrieveResponseStatus response w).2 = w.
Proof.
  unfold retrieveResponseStatus, bind.
  repeat match goal with
         | |- context [read_field ?v ?k ?w0] =>
             let H := fresh in
             pose proof (read_field_world v k w0) as H;
             destruct (read_field v k w0) as [[?|?| |] ?]; simpl in H; subst; try done
         end.
Qed.

(** X15.  The response callback of the Call component does not look at the
    status it retrieves: whatever the status message and code of the
    response are, the payload is replaced by the response body and the
    message is forwarded once. *)
Theorem on_response_ignores_the_status
    (fuel : nat) (c : cid) (m : mid) (responseBody response : value)
    (status : value * value) (w w' : world) (msg : esb_message) :
  msgs w !! m = Some msg →
  retrieveResponseStatus response w = (Ok status, w') →
  on_response fuel c m responseBody response w =
  next (send fuel) c None m
    (set_trace
       (trace w ++ [DbgWork c m "received response with body";
                    DbgWork c m "received response"])
       (set_msgs (<[m := with_payload responseBody msg]> (msgs w)) (next_mid w) w)).
Proof.
  intros Hmsg Hst.
  pose proof (retrieveResponseStatus_world response w) as Hw.
  rewrite Hst in Hw. simpl in Hw. subst w'.
  unfold on_response, bind at 1. rewrite Hst.
  cbv [bind debugCall debugComponent emit modify set_payload get_msg put_msg]. simpl.
  rewrite Hmsg. simpl. f_equal. unfold set_trace, set_msgs. simpl.
  by rewrite <- app_assoc.
Qed.

(** X16.  When the response has no [connection._httpMessage] (it is
    [undefined] or [null]), the response callback raises a [TypeError]
    before anything else happens: the payload is not replaced, the message
    is not forwarded and no callback is invoked; the world is as it was. *)
Theorem on_response_raises_without_http_message
    (fuel : nat) (c : cid) (m : mid) (responseBody : value) (w : world)
    (l lc : loc) (o oc : obj) :
  objs w !! l = Some o →
  o !! "connection" = Some (VRef lc) →
  objs w !! lc = Some oc →
  default VUndef (oc !! "_httpMessage") = VUndef ∨
  default VUndef (oc !! "_httpMessage") = VNull →
  on_response fuel c m responseBody (VRef l) w =
  (Throw (TypeError "Cannot read property of undefined or null"), w).
Proof.
  intros Hl Hconn Hlc Hhm.
  unfold on_response, retrieveResponseStatus, bind. simpl.
  rewrite Hl, Hconn. simpl. rewrite Hlc.
  by destruct Hhm as [-> | ->].
Qed.

(** ** Order of deferred sends *)

Lemma run_immediate_head (fuel : nat) (w0 : world) (c : cid) (m : mid)
    (rest : list (cid * mid)) :
  immediates w0 = (c, m) :: rest →
  run_immediate fuel w0 = send fuel c m (set_immediates rest w0) ∧
  immediates (run_immediate fuel w0).2 = rest.
Proof.
  intros Hq. assert (run_immediate fuel w0 = send fuel c m (set_immediates rest w0)) as Hrun.
  { unfold run_immediate. by rewrite Hq. }
  split; [done|]. rewrite Hrun.
  by destruct (preserves_send fuel c m (set_immediates rest w0)) as (_ & -> & _).
Qed.

Lemma check_phase_two (fuel : nat) (w : world) (a b : cid * mid) :
  immediates w = [a; b] →
  check_phase fuel w = (run_immediate fuel >> run_immediate fuel) w.
Proof.
  intros Hq. unfold check_phase. rewrite Hq. simpl. unfold bind, ret.
  destruct (run_immediate fuel w) as [[[]|e| |] w1]; [|done..].
  by destruct (run_immediate fuel w1) as [[[]|e| |] w2].
Qed.

(** X17.  Posted sends run in posting order: after two posts on an empty
    queue, the check phase of the event loop calls the first send and, when
    it returns, the second, in the world that the first one left.  When the
    first send raises, the phase ends with that error: the second send is
    still queued and is never started. *)
Theorem posted_sends_run_in_posting_order
    (fuel : nat) (c1 c2 : cid) (m1 m2 : mid) (w : world) (msg1 msg2 : esb_message) :
  msgs w !! m1 = Some msg1 →
  msgs w !! m2 = Some msg2 →
  immediates w = [] →
  ∃ w2,
    (post c1 m1 >> post c2 m2) w = (Ok tt, w2) ∧
    immediates w2 = [(c1, m1); (c2, m2)] ∧
    match send fuel c1 m1 (set_immediates [(c2, m2)] w2) with
    | (Ok _, w3) => check_phase fuel w2 = send fuel c2 m2 (set_immediates [] w3)
    | (r, w3) => check_phase fuel w2 = (r, w3) ∧ immediates w3 = [(c2, m2)]
    end.
Proof.
  intros H1 H2 Hq.
  destruct ((post c1 m1 >> post c2 m2) w) as [r w2] eqn:Hpost.
  assert (r = Ok tt ∧ immediates w2 = [(c1, m1); (c2, m2)]) as [-> Hq2].
  { revert Hpost. cbv [post bind get_msg debugComponent emit modify]. rewrite H1. simpl.
    rewrite H2. intros [= <- <-]. simpl. by rewrite Hq. }
  exists w2. split; [done|]. split; [done|].
  rewrite (check_phase_two fuel w2 _ _ Hq2).
  destruct (run_immediate_head fuel w2 c1 m1 [(c2, m2)] Hq2) as [Hrun Hleft].
  rewrite Hrun in Hleft.
  destruct (send fuel c1 m1 (set_immediates [(c2, m2)] w2)) as [[[]|e| |] w3];
    simpl in Hleft; unfold bind; rewrite Hrun; [|by split..].
  by destruct (run_immediate_head fuel w3 c2 m2 [] Hleft).
Qed.

(** ** Cycles *)

(** What follows a nested call in the work of a component only adds to the
    trace. *)
Lemma trace_after_nested (x k : M unit) (h : error → M unit) (w : world) :
  preserves k → (∀ e, preserves (h e)) →
  trace (x w).2 `prefix_of` trace (try_catch (x >> k) h w).2.
Proof.
  intros Hk Hh. unfold try_catch, bind.
  destruct (x w) as [[[]|e| |] w1]; simpl; try done.
  - pose proof (Hk w1) as (_ & _ & _ & Ht & _).
    destruct (k w1) as [[[]|e| |] w2]; simpl in *; try done.
    pose proof (Hh e w2) as (_ & _ & _ & Ht' & _). by etrans.
  - by pose proof (Hh e w1) as (_ & _ & _ & Ht & _).
Qed.

(** X18.  Nothing in the library ends the dispatch around a cycle: a Logger
    whose first target on the default channel is itself prints, starts and
    passes the message to itself again before anything else, at every
    depth.  Whatever number of nested sends a run is allowed, its trace
    starts with that many rounds (in Node the nesting goes on until the
    call stack is exhausted). *)
Theorem self_connected_logger_nests_to_any_depth
    (fuel : nat) (c : cid) (m : mid) (w : world)
    (this : esb_component) (msg : esb_message) (rest : list cid) :
  comps w !! c = Some this →
  c_fn this = FnLogger →
  c_channels this !! "default" = Some (c :: rest) →
  msgs w !! m = Some msg →
  trace w ++ mjoin (replicate fuel (cycle_round c m msg))
    `prefix_of` trace (send fuel c m w).2.
Proof.
  intros Hthis Hfn Hch Hmsg. revert w Hthis Hmsg.
  induction fuel as [|fuel IH]; intros w Hthis Hmsg.
  { simpl. by rewrite app_nil_r. }
  rewrite (send_unfold fuel c m w this msg Hthis Hmsg). rewrite Hfn.
  set (w0 := set_trace (trace w ++ cycle_round c m msg) w).
  set (body := λ t, debugMessage (DbgPassing c m t "default") >> send fuel t m).
  set (handler := λ error, call_callback c _).
  assert (try_catch (invoke_fn (send fuel) c m) handler
            (set_trace (trace w ++ send_entry FnLogger c m msg) w)
          = try_catch (send fuel c m >> forEach rest body) handler w0) as ->.
  { unfold try_catch, invoke_fn, bind at 1. unfold get_comp at 1. simpl.
    rewrite Hthis, Hfn. unfold work.
    rewrite (next_eq (send fuel) _ c this None m) by done. simpl. rewrite Hch.
    cbn [forEach]. fold body. unfold body at 1. unfold bind at 1 2.
    unfold debugMessage, emit, modify, send_entry, cycle_round, w0, set_trace. simpl.
    by rewrite <- !app_assoc. }
  etrans; [|apply trace_after_nested].
  - change (trace w ++ mjoin (replicate (S fuel) (cycle_round c m msg)))
      with (trace w ++ cycle_round c m msg ++ mjoin (replicate fuel (cycle_round c m msg))).
    rewrite app_assoc. by apply IH.
  - apply preserves_forEach. intros t. unfold body, debugMessage.
    apply preserves_bind; [apply preserves_emit|]. intros _. apply preserves_send.
  - intros e. apply preserves_call_callback.
Qed.

(** ** Further scenarios run on the model *)

(** The Merge component in the middle of the fan-out raises on the [null]
    payload: the first sink has been invoked, the one after it never is. *)
Example abort_scenario_result :
  abort_scenario =
  (Throw (TypeError "this.callback is not a function"), [Called 1 (CbResult 0)]).
Proof. vm_compute. reflexivity. Qed.

(** ** Keys, strings and inherited names, evaluated *)

Example number_keys :
  to_key (VNum 42) = "42" ∧
  to_key (VNum (-7)) = "-7" ∧
  to_key (VNum (2 ^ 53 + 1)) = "9007199254740992" ∧
  to_key (VNum (10 ^ 21 - 1)) = "1e+21" ∧
  to_key (VNum (10 ^ 21)) = "1e+21" ∧
  to_key (VNum (2 ^ 70)) = "1.1805916207174113e+21" ∧
  to_key (VNum (2 ^ 1024)) = "Infinity".
Proof. split_and!; vm_compute; reflexivity. Qed.

Example upper_case_examples :
  toUpperCase "Set" = "SET" ∧
  toUpperCase (long_s ++ "et") = "SET" ∧
  toUpperCase "gets" = "GETS" ∧
  toUpperCase (bytes [239; 172; 134]) = "ST".
Proof. split_and!; vm_compute; reflexivity. Qed.

Example code_units_example :
  code_units ("a" ++ bytes [195; 169] ++ bytes [226; 130; 172] ++ bytes [240; 159; 152; 128])
  = ["a"; bytes [195; 169]; bytes [226; 130; 172]; bytes [237; 160; 189]; bytes [237; 184; 128]].
Proof. vm_compute. reflexivity. Qed.

Example inherited_examples :
  inherited "toString" = true ∧ inherited "constructor" = true ∧
  inherited "__proto__" = true ∧ inherited "default" = false ∧ inherited "v" = false.
Proof. split_and!; vm_compute; reflexivity. Qed.

(** Variable-get under a name that no variable holds leaves the payload
    alone, unless every object inherits the name: under [toString] the
    payload becomes the built-in function, under [__proto__] a new object. *)
Example unset_name_scenario_result :
  result_of (unset_name_scenario "missing") empty_world = Ok (VNum 5) ∧
  result_of (unset_name_scenario "toString") empty_world = Ok (VBuiltin BToString) ∧
  result_of (unset_name_scenario "__proto__") empty_world = Ok (VRef 0) ∧
  objs (world_after (unset_name_scenario "__proto__") empty_world) !! 0 = Some ∅.
Proof. split_and!; vm_compute; reflexivity. Qed.

(** Variable-set under [__proto__] stores no variable when the payload is a
    primitive. *)
Example proto_name_scenario_result :
  result_of (proto_name_scenario (ret (VNum 5))) empty_world = Ok ∅.
Proof. vm_compute. reflexivity. Qed.

(** ** Further instances *)

Lemma send_never_removes_a_variable_witness :
  ∃ msg,
    msgs snap_stored_world !! 0 = Some msg ∧
    is_Some (m_vars msg !! "snap") ∧
    ∃ msg', msgs (send 2 1 0 snap_stored_world).2 !! 0 = Some msg' ∧
            is_Some (m_vars msg' !! "snap").
Proof.
  assert (∃ msg, msgs snap_stored_world !! 0 = Some msg ∧
                 m_vars msg !! "snap" = Some (VRef 2))
    as (msg & Hmsg & Hsnap) by (eexists; split; [vm_compute; reflexivity|vm_compute; reflexivity]).
  assert (is_Some (m_vars msg !! "snap")) as Hk by (rewrite Hsnap; eexists; reflexivity).
  exists msg. split; [exact Hmsg|]. split; [exact Hk|].
  exact (send_never_removes_a_variable 2 1 0 0 snap_stored_world msg "snap" Hmsg Hk).
Defined.

Lemma result_component_absorbs_witness :
  ∃ this msg,
    comps fanout_world !! 1 = Some this ∧
    c_fn this = FnResult ∧
    msgs fanout_world !! 0 = Some msg ∧
    c_callback this = Some (recorder 1) ∧
    send 1 1 0 fanout_world =
    (Ok tt,
     set_trace (trace fanout_world ++ [DbgStarted 1 (correlationId (m_context msg));
                                       Called 1 (CbResult 0)]) fanout_world).
Proof.
  assert (∃ this, comps fanout_world !! 1 = Some this ∧ c_fn this = FnResult ∧
                  c_callback this = Some (recorder 1))
    as (this & Hthis & Hfn & Hcb) by (eexists; split_and!; vm_compute; reflexivity).
  assert (∃ msg, msgs fanout_world !! 0 = Some msg)
    as (msg & Hmsg) by (eexists; vm_compute; reflexivity).
  exists this, msg.
  split; [exact Hthis|]. split; [exact Hfn|]. split; [exact Hmsg|]. split; [exact Hcb|].
  exact (result_component_absorbs 0 1 0 fanout_world this msg (recorder 1)
           Hthis Hfn Hmsg Hcb eq_refl).
Defined.

Lemma result_callback_invoked_again_on_its_own_error_witness :
  ∃ this msg,
    comps grumpy_world !! 0 = Some this ∧
    c_fn this = FnResult ∧
    msgs grumpy_world !! 0 = Some msg ∧
    c_callback this = Some (raising_on_result 3 boom) ∧
    send 1 0 0 grumpy_world =
    (Ok tt,
     set_trace
       (trace grumpy_world ++
        [DbgStarted 0 (correlationId (m_context msg));
         Called 3 (CbResult 0);
         Called 3 (CbFailure {| ei_component := 0; ei_message := 0; ei_cause := boom |})])
       grumpy_world).
Proof.
  assert (∃ this, comps grumpy_world !! 0 = Some this ∧ c_fn this = FnResult ∧
                  c_callback this = Some (raising_on_result 3 boom))
    as (this & Hthis & Hfn & Hcb) by (eexists; split_and!; vm_compute; reflexivity).
  assert (∃ msg, msgs grumpy_world !! 0 = Some msg)
    as (msg & Hmsg) by (eexists; vm_compute; reflexivity).
  exists this, msg.
  split; [exact Hthis|]. split; [exact Hfn|]. split; [exact Hmsg|]. split; [exact Hcb|].
  exact (result_callback_invoked_again_on_its_own_error 0 0 0 grumpy_world this msg
           (raising_on_result 3 boom) boom Hthis Hfn Hmsg Hcb eq_refl eq_refl).
Defined.

Lemma send_without_callback_masks_the_error_witness :
  ∃ this msg w',
    comps sink_world !! 1 = Some this ∧
    msgs sink_world !! 0 = Some msg ∧
    work (send 0) (c_fn this) 1 (get_field this "context") 0
      (set_trace (trace sink_world ++ send_entry (c_fn this) 1 0 msg) sink_world)
      = (Throw (TypeError "Cannot convert undefined or null to object"), w') ∧
    c_callback this = None ∧
    send 1 1 0 sink_world = (Throw (TypeError "this.callback is not a function"), w').
Proof.
  assert (∃ this, comps sink_world !! 1 = Some this ∧ c_fn this = FnCombine ∧
                  get_field this "context" = VUndef ∧ c_callback this = None)
    as (this & Hthis & Hfn & Hctx & Hcb)
    by (eexists; split_and!; vm_compute; reflexivity).
  assert (∃ msg, msgs sink_world !! 0 = Some msg ∧ correlationId (m_context msg) = 0)
    as (msg & Hmsg & Hcorr) by (eexists; split_and!; vm_compute; reflexivity).
  assert (∃ w', work (send 0) (c_fn this) 1 (get_field this "context") 0
                  (set_trace (trace sink_world ++ send_entry (c_fn this) 1 0 msg)
                     sink_world)
                = (Throw (TypeError "Cannot convert undefined or null to object"), w'))
    as (w' & Hwork).
  { unfold send_entry. rewrite Hfn, Hctx, Hcorr. eexists. vm_compute. reflexivity. }
  exists this, msg, w'.
  split; [exact Hthis|]. split; [exact Hmsg|]. split; [exact Hwork|].
  split; [exact Hcb|].
  exact (send_without_callback_masks_the_error 0 1 0 sink_world w' this msg _
           Hthis Hmsg Hwork Hcb).
Defined.

Lemma send_raises_what_the_callback_raises_witness :
  ∃ this msg w',
    comps grumpy_world !! 1 = Some this ∧
    msgs grumpy_world !! 0 = Some msg ∧
    work (send 0) (c_fn this) 1 (get_field this "context") 0
      (set_trace (trace grumpy_world ++ send_entry (c_fn this) 1 0 msg) grumpy_world)
      = (Throw boom, w') ∧
    c_callback this = Some (raising 4 boom) ∧
    send 1 1 0 grumpy_world =
    (Throw boom,
     set_trace
       (trace w' ++
        [Called 4 (CbFailure {| ei_component := 1; ei_message := 0; ei_cause := boom |})])
       w').
Proof.
  assert (∃ this, comps grumpy_world !! 1 = Some this ∧ c_fn this = FnResult ∧
                  get_field this "context" = VUndef ∧
                  c_callback this = Some (raising 4 boom))
    as (this & Hthis & Hfn & Hctx & Hcb)
    by (eexists; split_and!; vm_compute; reflexivity).
  assert (∃ msg, msgs grumpy_world !! 0 = Some msg ∧ correlationId (m_context msg) = 0)
    as (msg & Hmsg & Hcorr) by (eexists; split_and!; vm_compute; reflexivity).
  assert (∃ w', work (send 0) (c_fn this) 1 (get_field this "context") 0
                  (set_trace (trace grumpy_world ++ send_entry (c_fn this) 1 0 msg)
                     grumpy_world)
                = (Throw boom, w'))
    as (w' & Hwork).
  { unfold send_entry. rewrite Hfn, Hctx, Hcorr. eexists. vm_compute. reflexivity. }
  exists this, msg, w'.
  split; [exact Hthis|]. split; [exact Hmsg|]. split; [exact Hwork|].
  split; [exact Hcb|].
  exact (send_raises_what_the_callback_raises 0 1 0 grumpy_world w' this msg
           (raising 4 boom) boom boom Hthis Hmsg Hwork Hcb eq_refl).
Defined.

Lemma next_stops_at_a_raising_target_witness :
  ∃ this w1 w2,
    comps abort_world !! 0 = Some this ∧
    c_channels this !! "default" = Some [1; 2; 3] ∧
    forEach [1] (λ t, debugMessage (DbgPassing 0 0 t "default") >> send 2 t 0) abort_world
      = (Ok tt, w1) ∧
    (debugMessage (DbgPassing 0 0 2 "default") >> send 2 2 0) w1
      = (Throw (TypeError "this.callback is not a function"), w2) ∧
    next (send 2) 0 None 0 abort_world
      = (Throw (TypeError "this.callback is not a function"), w2).
Proof.
  assert (∃ this, comps abort_world !! 0 = Some this ∧
                  c_channels this !! "default" = Some [1; 2; 3])
    as (this & Hthis & Hch) by (eexists; split; [vm_compute; reflexivity|vm_compute; reflexivity]).
  assert (∃ w1, forEach [1] (λ t, debugMessage (DbgPassing 0 0 t "default") >> send 2 t 0)
                  abort_world = (Ok tt, w1))
    as (w1 & Hbefore) by (eexists; vm_compute; reflexivity).
  assert (∃ w2, (debugMessage (DbgPassing 0 0 2 "default") >> send 2 2 0) w1
                = (Throw (TypeError "this.callback is not a function"), w2))
    as (w2 & Ht).
  { assert (w1 = (forEach [1] (λ t, debugMessage (DbgPassing 0 0 t "default") >> send 2 t 0)
                    abort_world).2) as -> by (by rewrite Hbefore).
    eexists. vm_compute. reflexivity. }
  exists this, w1, w2.
  split; [exact Hthis|]. split; [exact Hch|]. split; [exact Hbefore|]. split; [exact Ht|].
  exact (next_stops_at_a_raising_target (send 2) 0 None 0 abort_world w1 w2 this
           [1] [3] 2 _ Hthis Hch Hbefore Ht).
Defined.

Lemma logger_reports_what_escapes_its_target_witness :
  ∃ this_l this_t msg w',
    comps sink_world !! 0 = Some this_l ∧
    c_fn this_l = FnLogger ∧
    c_channels this_l !! "default" = Some [1] ∧
    c_callback this_l = Some (recorder 9) ∧
    comps sink_world !! 1 = Some this_t ∧
    c_callback this_t = None ∧
    msgs sink_world !! 0 = Some msg ∧
    work (send 1) (c_fn this_t) 1 (get_field this_t "context") 0
      (set_trace (trace sink_world ++
                  [ConsoleLog 0 0; DbgStarted 0 (correlationId (m_context msg));
                   DbgPassing 0 0 1 "default"]
                  ++ send_entry (c_fn this_t) 1 0 msg) sink_world)
      = (Throw (TypeError "Cannot convert undefined or null to object"), w') ∧
    send 3 0 0 sink_world =
    (Ok tt,
     set_trace
       (trace w' ++
        [Called 9 (CbFailure {| ei_component := 0; ei_message := 0;
                                ei_cause := TypeError "this.callback is not a function" |})])
       w').
Proof.
  assert (∃ this, comps sink_world !! 0 = Some this ∧ c_fn this = FnLogger ∧
                  c_channels this !! "default" = Some [1] ∧
                  c_callback this = Some (recorder 9))
    as (this_l & Hl & Hfn & Hch & Hcb)
    by (eexists; split_and!; vm_compute; reflexivity).
  assert (∃ this, comps sink_world !! 1 = Some this ∧ c_fn this = FnCombine ∧
                  get_field this "context" = VUndef ∧ c_callback this = None)
    as (this_t & Ht & Hfnt & Hctx & Hnone)
    by (eexists; split_and!; vm_compute; reflexivity).
  assert (∃ msg, msgs sink_world !! 0 = Some msg ∧ correlationId (m_context msg) = 0)
    as (msg & Hmsg & Hcorr) by (eexists; split_and!; vm_compute; reflexivity).
  assert (∃ w', work (send 1) (c_fn this_t) 1 (get_field this_t "context") 0
                  (set_trace (trace sink_world ++
                              [ConsoleLog 0 0; DbgStarted 0 (correlationId (m_context msg));
                               DbgPassing 0 0 1 "default"]
                              ++ send_entry (c_fn this_t) 1 0 msg) sink_world)
                = (Throw (TypeError "Cannot convert undefined or null to object"), w'))
    as (w' & Hwork).
  { unfold send_entry. rewrite Hfnt, Hctx, Hcorr. eexists. vm_compute. reflexivity. }
  exists this_l, this_t, msg, w'.
  split; [exact Hl|]. split; [exact Hfn|]. split; [exact Hch|]. split; [exact Hcb|].
  split; [exact Ht|]. split; [exact Hnone|]. split; [exact Hmsg|]. split; [exact Hwork|].
  exact (logger_reports_what_escapes_its_target 1 0 1 0 sink_world w' this_l this_t msg
           (recorder 9) _ Hl Hfn Hch Hcb Ht Hnone Hmsg Hwork eq_refl).
Defined.

Lemma sleep_component_only_sets_a_timer_witness :
  ∃ this msg,
    comps sleep_world !! 0 = Some this ∧
    c_fn this = FnSleep ∧
    msgs sleep_world !! 0 = Some msg ∧
    c_channels this !! "default" = Some [1] ∧
    send 1 0 0 sleep_world =
    (Ok tt,
     set_timers (timers sleep_world ++ [(VNum 10, 0, 0)])
       (set_trace (trace sleep_world ++ [DbgStarted 0 (correlationId (m_context msg));
                                         DbgWork 0 0 "sleeping"]) sleep_world)).
Proof.
  assert (∃ this, comps sleep_world !! 0 = Some this ∧ c_fn this = FnSleep ∧
                  c_channels this !! "default" = Some [1] ∧
                  get_field this "sleepMiliseconds" = VNum 10)
    as (this & Hthis & Hfn & Hch & Hms) by (eexists; split_and!; vm_compute; reflexivity).
  assert (∃ msg, msgs sleep_world !! 0 = Some msg)
    as (msg & Hmsg) by (eexists; vm_compute; reflexivity).
  exists this, msg.
  split; [exact Hthis|]. split; [exact Hfn|]. split; [exact Hmsg|]. split; [exact Hch|].
  rewrite <- Hms.
  exact (sleep_component_only_sets_a_timer 0 0 0 sleep_world this msg Hthis Hfn Hmsg).
Defined.

Lemma mapper_failure_cannot_be_reported_witness :
  ∃ msg,
    msgs mapper_world !! 0 = Some msg ∧
    failing_mapper boom (objs mapper_world) (fresh mapper_world) (m_payload msg) VUndef
      = (Throw boom, objs mapper_world, fresh mapper_world) ∧
    ∃ w0 w',
      createMapperComponent (failing_mapper boom) VUndef mapper_world = (Ok 1, w0) ∧
      send 1 1 0 w0 = (Throw (TypeError "this.callback is not a function"), w') ∧
      msgs w' = msgs mapper_world.
Proof.
  assert (∃ msg, msgs mapper_world !! 0 = Some msg)
    as (msg & Hmsg) by (eexists; vm_compute; reflexivity).
  exists msg. split; [exact Hmsg|]. split; [reflexivity|].
  exact (mapper_failure_cannot_be_reported 0 (failing_mapper boom) VUndef 0 mapper_world
           msg boom _ _ Hmsg eq_refl).
Defined.

Lemma varset_touches_only_its_variable_witness :
  ∃ this msg,
    to_key (get_field this "variableName") = "1e+21" ∧
    "1e+21" ≠ "__proto__" ∧
    heap_closed (objs numeric_name_world) (fresh numeric_name_world) ∧
    comps numeric_name_world !! 0 = Some this ∧
    msgs numeric_name_world !! 0 = Some msg ∧
    val_ok (objs numeric_name_world) (m_payload msg) ∧
    ∃ w1 msg1,
      work (send 1) FnVarSet 0 VUndef 0 numeric_name_world = next (send 1) 0 None 0 w1 ∧
      msgs w1 !! 0 = Some msg1 ∧
      m_payload msg1 = m_payload msg ∧
      m_originalPayload msg1 = m_originalPayload msg ∧
      is_Some (m_vars msg1 !! "1e+21") ∧
      ∀ l, l < fresh numeric_name_world → objs w1 !! l = objs numeric_name_world !! l.
Proof.
  assert (heap_closed (objs numeric_name_world) (fresh numeric_name_world)) as Hc
    by (vm_compute; reflexivity).
  assert (∃ this, comps numeric_name_world !! 0 = Some this ∧
                  to_key (get_field this "variableName") = "1e+21")
    as (this & Hthis & Hkey)
    by (eexists; split; [vm_compute; reflexivity|vm_compute; reflexivity]).
  assert (∃ msg, msgs numeric_name_world !! 0 = Some msg ∧ m_payload msg = VRef 0)
    as (msg & Hmsg & Hp)
    by (eexists; split; [vm_compute; reflexivity|vm_compute; reflexivity]).
  assert (val_ok (objs numeric_name_world) (m_payload msg)) as Hv
    by (rewrite Hp; vm_compute; reflexivity).
  assert ("1e+21" ≠ "__proto__") as Hname by discriminate.
  assert (to_key (get_field this "variableName") ≠ "__proto__") as Hname'
    by (rewrite Hkey; exact Hname).
  exists this, msg.
  split; [exact Hkey|]. split; [exact Hname|].
  split; [exact Hc|]. split; [exact Hthis|]. split; [exact Hmsg|]. split; [exact Hv|].
  destruct (varset_touches_only_its_variable (send 1) 0 VUndef 0 numeric_name_world
              this msg Hname' Hc Hthis Hmsg Hv)
    as (w1 & msg1 & H1 & H2 & H3 & _ & H5 & H6 & _ & _ & H9).
  rewrite Hkey in H6.
  exists w1, msg1.
  split; [exact H1|]. split; [exact H2|]. split; [exact H3|]. split; [exact H5|].
  split; [exact H6|exact H9].
Defined.

Lemma varget_touches_only_the_payload_witness :
  ∃ this msg,
    heap_closed (objs snap_stored_world) (fresh snap_stored_world) ∧
    comps snap_stored_world !! 1 = Some this ∧
    msgs snap_stored_world !! 0 = Some msg ∧
    (∀ v, m_vars msg !! to_key (get_field this "variableName") = Some v →
          val_ok (objs snap_stored_world) v) ∧
    ∃ w1 msg1,
      work (send 1) FnVarGet 1 VUndef 0 snap_stored_world = next (send 1) 1 None 0 w1 ∧
      msgs w1 !! 0 = Some msg1 ∧
      m_vars msg1 = m_vars msg ∧
      ∀ l, l < fresh snap_stored_world → objs w1 !! l = objs snap_stored_world !! l.
Proof.
  assert (heap_closed (objs snap_stored_world) (fresh snap_stored_world)) as Hc
    by (vm_compute; reflexivity).
  assert (∃ this, comps snap_stored_world !! 1 = Some this ∧
                  to_key (get_field this "variableName") = "snap")
    as (this & Hthis & Hkey) by (eexists; split; [vm_compute; reflexivity|vm_compute; reflexivity]).
  assert (∃ msg, msgs snap_stored_world !! 0 = Some msg ∧
                 m_vars msg !! "snap" = Some (VRef 2))
    as (msg & Hmsg & Hsnap) by (eexists; split; [vm_compute; reflexivity|vm_compute; reflexivity]).
  assert (∀ v, m_vars msg !! to_key (get_field this "variableName") = Some v →
               val_ok (objs snap_stored_world) v) as Hv.
  { intros v. rewrite Hkey, Hsnap. intros [= <-]. vm_compute. reflexivity. }
  exists this, msg.
  split; [exact Hc|]. split; [exact Hthis|]. split; [exact Hmsg|]. split; [exact Hv|].
  destruct (varget_touches_only_the_payload (send 1) 1 VUndef 0 snap_stored_world this msg
              Hc Hthis Hmsg Hv)
    as (w1 & msg1 & H1 & H2 & H3 & _ & _ & _ & H7).
  exists w1, msg1.
  split; [exact H1|]. split; [exact H2|]. split; [exact H3|]. exact H7.
Defined.

Lemma combine_without_payload_raises_witness :
  ∃ msg,
    msgs abort_world !! 0 = Some msg ∧
    (m_payload msg = VNull ∨ m_payload msg = VUndef) ∧
    ∃ w0 w',
      createCombineComponent (VStr "missing") abort_world = (Ok 4, w0) ∧
      send 1 4 0 w0 = (Throw (TypeError "this.callback is not a function"), w') ∧
      msgs w' = msgs abort_world ∧ objs w' = objs abort_world.
Proof.
  assert (∃ msg, msgs abort_world !! 0 = Some msg ∧ m_payload msg = VNull)
    as (msg & Hmsg & Hp) by (eexists; split; [vm_compute; reflexivity|vm_compute; reflexivity]).
  exists msg. split; [exact Hmsg|]. split; [left; exact Hp|].
  destruct (combine_without_payload_raises 0 (VStr "missing") 0 abort_world msg Hmsg
              (or_introl Hp))
    as (w0 & w' & H1 & H2 & H3 & H4 & _).
  exists w0, w'. split; [exact H1|]. split; [exact H2|]. split; [exact H3|]. exact H4.
Defined.

Lemma combine_twice_is_combine_once_witness :
  ∃ this msg,
    comps merge_world !! 1 = Some this ∧
    msgs merge_world !! 0 = Some msg ∧
    m_payload msg = VRef 4 ∧
    objs merge_world !! 4 = Some {["x" := VNum 2; "y" := VNum 3]} ∧
    ∃ w1 w2,
      work (send 1) FnCombine 1 VUndef 0 merge_world = next (send 1) 1 None 0 w1 ∧
      work (send 1) FnCombine 1 VUndef 0 w1 = next (send 1) 1 None 0 w2 ∧
      objs w2 = objs w1.
Proof.
  assert (∃ this, comps merge_world !! 1 = Some this)
    as (this & Hthis) by (eexists; vm_compute; reflexivity).
  assert (∃ msg, msgs merge_world !! 0 = Some msg ∧ m_payload msg = VRef 4)
    as (msg & Hmsg & Hp) by (eexists; split_and!; vm_compute; reflexivity).
  assert (objs merge_world !! 4 = Some {["x" := VNum 2; "y" := VNum 3]}) as Ho
    by (vm_compute; reflexivity).
  exists this, msg.
  split; [exact Hthis|]. split; [exact Hmsg|]. split; [exact Hp|]. split; [exact Ho|].
  destruct (combine_twice_is_combine_once (send 1) 1 VUndef 0 merge_world this msg 4 _
              Hthis Hmsg Hp Ho) as (w1 & w2 & H1 & H2 & H3 & _).
  exists w1, w2. split; [exact H1|]. split; [exact H2|]. exact H3.
Defined.

Lemma createCallComponent_takes_the_verb_from_URI_witness :
  ∃ msg,
    msgs fanout_world !! 0 = Some msg ∧
    ∃ w0 w1,
      createCallComponent (Some (recorder 5)) (VStr "http://host") (VStr "/users")
        (VStr "GET") VUndef fanout_world = (Ok 3, w0) ∧
      send 1 3 0 w0 = (Ok tt, w1) ∧
      requests w1 =
        [{| rq_component := 3; rq_message := 0; rq_verb := POST;
            rq_url := VStr "http://host"; rq_path := Some (VStr "GET");
            rq_data := Some (m_payload msg) |}].
Proof.
  assert (∃ msg, msgs fanout_world !! 0 = Some msg)
    as (msg & Hmsg) by (eexists; vm_compute; reflexivity).
  exists msg. split; [exact Hmsg|].
  destruct (createCallComponent_takes_the_verb_from_URI 0 (Some (recorder 5))
              (VStr "http://host") (VStr "GET") VUndef "/users" 0 fanout_world msg Hmsg)
    as (w0 & w1 & H1 & H2 & _ & H4).
  exists w0, w1. split; [exact H1|]. split; [exact H2|]. exact H4.
Defined.

Lemma on_response_ignores_the_status_witness :
  ∃ msg w',
    msgs response_world !! 0 = Some msg ∧
    retrieveResponseStatus (VRef 3) response_world
      = (Ok (VStr "Internal Server Error", VNum 500), w') ∧
    on_response 1 0 0 (VStr "body") (VRef 3) response_world =
    next (send 1) 0 None 0
      (set_trace
         (trace response_world ++ [DbgWork 0 0 "received response with body";
                                   DbgWork 0 0 "received response"])
         (set_msgs (<[0 := with_payload (VStr "body") msg]> (msgs response_world))
            (next_mid response_world) response_world)).
Proof.
  assert (∃ msg, msgs response_world !! 0 = Some msg)
    as (msg & Hmsg) by (eexists; vm_compute; reflexivity).
  assert (∃ w', retrieveResponseStatus (VRef 3) response_world
                = (Ok (VStr "Internal Server Error", VNum 500), w'))
    as (w' & Hst) by (eexists; vm_compute; reflexivity).
  exists msg, w'. split; [exact Hmsg|]. split; [exact Hst|].
  exact (on_response_ignores_the_status 1 0 0 (VStr "body") (VRef 3) _ response_world w'
           msg Hmsg Hst).
Defined.

Lemma on_response_raises_without_http_message_witness :
  objs response_world !! 5 = Some {["connection" := VRef 4]} ∧
  objs response_world !! 4 = Some {["_httpMessage" := VNull]} ∧
  on_response 1 0 0 (VStr "body") (VRef 5) response_world =
  (Throw (TypeError "Cannot read property of undefined or null"), response_world).
Proof.
  assert (objs response_world !! 5 = Some {["connection" := VRef 4]}) as Hl
    by (vm_compute; reflexivity).
  assert (objs response_world !! 4 = Some {["_httpMessage" := VNull]}) as Hlc
    by (vm_compute; reflexivity).
  split; [exact Hl|]. split; [exact Hlc|].
  exact (on_response_raises_without_http_message 1 0 0 (VStr "body") response_world
           5 4 _ _ Hl eq_refl Hlc (or_intror eq_refl)).
Defined.

Lemma posted_sends_run_in_posting_order_witness :
  (∃ msg,
     msgs fanout_world !! 0 = Some msg ∧
     immediates fanout_world = [] ∧
     ∃ w2 w3,
       (post 1 0 >> post 2 0) fanout_world = (Ok tt, w2) ∧
       send 3 1 0 (set_immediates [(2, 0)] w2) = (Ok tt, w3) ∧
       check_phase 3 w2 = send 3 2 0 (set_immediates [] w3) ∧
       calls_in (trace (check_phase 3 w2).2) = [Called 1 (CbResult 0); Called 2 (CbResult 0)]) ∧
  (∃ msg,
     msgs grumpy_world !! 0 = Some msg ∧
     immediates grumpy_world = [] ∧
     ∃ w2 w3,
       (post 1 0 >> post 0 0) grumpy_world = (Ok tt, w2) ∧
       send 3 1 0 (set_immediates [(0, 0)] w2) = (Throw boom, w3) ∧
       check_phase 3 w2 = (Throw boom, w3) ∧
       immediates w3 = [(0, 0)]).
Proof.
  split.
  - assert (∃ msg, msgs fanout_world !! 0 = Some msg)
      as (msg & Hmsg) by (eexists; vm_compute; reflexivity).
    exists msg. split; [exact Hmsg|]. split; [reflexivity|].
    destruct (posted_sends_run_in_posting_order 3 1 2 0 0 fanout_world msg msg
                Hmsg Hmsg eq_refl) as (w2 & H1 & H2 & H3).
    assert (w2 = world_after (post 1 0 >> post 2 0) fanout_world) as ->
      by (unfold world_after; rewrite H1; reflexivity).
    match type of H3 with
    | match ?first with _ => _ end =>
        assert (∃ w3, first = (Ok tt, w3)) as (w3 & H4)
          by (eexists; vm_compute; reflexivity)
    end.
    rewrite H4 in H3.
    eexists; exists w3. split; [exact H1|]. split; [exact H4|]. split; [exact H3|].
    vm_compute. reflexivity.
  - assert (∃ msg, msgs grumpy_world !! 0 = Some msg)
      as (msg & Hmsg) by (eexists; vm_compute; reflexivity).
    exists msg. split; [exact Hmsg|]. split; [reflexivity|].
    destruct (posted_sends_run_in_posting_order 3 1 0 0 0 grumpy_world msg msg
                Hmsg Hmsg eq_refl) as (w2 & H1 & H2 & H3).
    assert (w2 = world_after (post 1 0 >> post 0 0) grumpy_world) as ->
      by (unfold world_after; rewrite H1; reflexivity).
    match type of H3 with
    | match ?first with _ => _ end =>
        assert (∃ w3, first = (Throw boom, w3)) as (w3 & H4)
          by (eexists; vm_compute; reflexivity)
    end.
    rewrite H4 in H3. destruct H3 as [H5 H6].
    eexists; exists w3. split; [exact H1|]. split; [exact H4|]. split; [exact H5|exact H6].
Defined.

Lemma self_connected_logger_nests_to_any_depth_witness :
  ∃ this msg,
    comps loop_world !! 0 = Some this ∧
    c_fn this = FnLogger ∧
    c_channels this !! "default" = Some [0] ∧
    msgs loop_world !! 0 = Some msg ∧
    trace loop_world ++ mjoin (replicate 7 (cycle_round 0 0 msg))
      `prefix_of` trace (send 7 0 0 loop_world).2.
Proof.
  assert (∃ this, comps loop_world !! 0 = Some this ∧ c_fn this = FnLogger ∧
                  c_channels this !! "default" = Some [0])
    as (this & Hthis & Hfn & Hch) by (eexists; split_and!; vm_compute; reflexivity).
  assert (∃ msg, msgs loop_world !! 0 = Some msg)
    as (msg & Hmsg) by (eexists; vm_compute; reflexivity).
  exists this, msg.
  split; [exact Hthis|]. split; [exact Hfn|]. split; [exact Hch|]. split; [exact Hmsg|].
  exact (self_connected_logger_nests_to_any_depth 7 0 0 loop_world this msg []
           Hthis Hfn Hch Hmsg).
Defined.
